(** * The clue system of the escape-room game (clue-system.js)

    A shallow embedding of the puzzle engine: items, the inventory, trigger
    conditions, interactions and their actions, the game state store, the
    combination lock and the [ClueSystem] class that ties them together.

    Conventions.
    - A JavaScript method that mutates [this] becomes a function that takes
      the object and returns the new object (with the returned value when
      there is one).
    - A JavaScript string is a [string]: one [ascii] per code unit.  Lengths
      are only ever taken of the lock's code and of the entered digits, which
      are ASCII; the user-facing messages are kept as their UTF-8 bytes and
      are only compared for equality.
    - [debugLogger] is a write-only side channel (it appends to its own list
      and to the DOM); no method of the engine reads it, so the calls to it
      are left out. *)

From Stdlib Require Import ZArith QArith String Ascii List Bool DecimalString Lia.
From stdpp Require Import gmap strings.
Import ListNotations.

Set Warnings "-register-all".

Local Open Scope Z_scope.
Local Open Scope string_scope.

(** Characters that cannot be written inside a string literal. *)
Definition nl : string := String (ascii_of_nat 10) EmptyString.
Definition dq : string := String (ascii_of_nat 34) EmptyString.

(* ==================== DebugLogger ==================== *)
(** The log sink.  [new Date().toISOString()] is read from the clock at each
    call, so the timestamp is an argument of [log]; the logged payload is
    kept as its JSON text.  Writing to the console and to the DOM
    ([updateLogDisplay]) changes nothing the logger or the engine reads. *)
Module DebugLogger.

Record LogEntry : Type := mkEntry {
  timestamp : string;
  level : string;
  message : string;
  data : option string
}.

Record t : Type := mk {
  logs : list LogEntry;
  maxLogs : Z;
  enabled : bool;
  logLevel : string
}.

Definition new : t := mk [] 1000 true "INFO".

Definition set_logs (v : list LogEntry) (this : t) : t :=
  mk v (maxLogs this) (enabled this) (logLevel this).

(** [Array.prototype.shift]: drops the first element, if any. *)
Definition shift {A : Type} (l : list A) : list A := List.tl l.

Definition log (timestamp level message : string) (data : option string)
           (this : t) : t :=
  if negb (enabled this) then this
  else
    let logEntry := mkEntry timestamp level message data in
    let this := set_logs (logs this ++ [logEntry]) this in
    if (maxLogs this <? Z.of_nat (List.length (logs this)))%Z
    then set_logs (shift (logs this)) this
    else this.

Definition debug (timestamp message : string) (data : option string)
  : t -> t := log timestamp "DEBUG" message data.
Definition info (timestamp message : string) (data : option string)
  : t -> t := log timestamp "INFO" message data.
Definition warn (timestamp message : string) (data : option string)
  : t -> t := log timestamp "WARN" message data.
Definition error (timestamp message : string) (data : option string)
  : t -> t := log timestamp "ERROR" message data.

Definition getLogs (this : t) : list LogEntry := logs this.

Definition clearLogs (this : t) : t := set_logs [] this.

(** A sequence of [log] calls, one per entry. *)
Definition logAll (entries : list LogEntry) (this : t) : t :=
  fold_left
    (fun this e => log (timestamp e) (level e) (message e) (data e) this)
    entries this.

End DebugLogger.

(* ==================== Item ==================== *)
Module Item.

Record t : Type := mk {
  id : string;
  name : string;
  description : string;
  icon : string;
  canCollect : bool;
  collected : bool;
  consumable : bool;
  usesLeft : Z
}.

(** [constructor(id, name, description, icon, canCollect = true)] *)
Definition new (id name description icon : string) (canCollect : bool) : t :=
  mk id name description icon canCollect false false 1.

Definition set_collected (v : bool) (this : t) : t :=
  mk (id this) (name this) (description this) (icon this) (canCollect this)
     v (consumable this) (usesLeft this).

Definition set_consumable (v : bool) (this : t) : t :=
  mk (id this) (name this) (description this) (icon this) (canCollect this)
     (collected this) v (usesLeft this).

Definition set_usesLeft (v : Z) (this : t) : t :=
  mk (id this) (name this) (description this) (icon this) (canCollect this)
     (collected this) (consumable this) v.

Definition clone (this : t) : t :=
  let item := new (id this) (name this) (description this) (icon this)
                  (canCollect this) in
  let item := set_collected (collected this) item in
  let item := set_consumable (consumable this) item in
  let item := set_usesLeft (usesLeft this) item in
  item.

Definition use (this : t) : t * bool :=
  if consumable this && (0 <? usesLeft this)%Z
  then (set_usesLeft (usesLeft this - 1) this, true)
  else (this, false).

End Item.

(* ==================== JavaScript plain objects ==================== *)
(** A read [object[key]] of a plain object finds the object's own
    properties and, failing that, the members every plain object inherits
    from [Object.prototype]: these are their names (ECMAScript, with the
    Annex B accessors).  A map that stands for a plain object holds the own
    properties only, so it agrees with the object on every other key. *)
Module JsObject.

Definition inheritedNames : list string :=
  ["constructor"; "hasOwnProperty"; "isPrototypeOf"; "propertyIsEnumerable";
   "toLocaleString"; "toString"; "valueOf"; "__proto__";
   "__defineGetter__"; "__defineSetter__"; "__lookupGetter__";
   "__lookupSetter__"].

End JsObject.

(* ==================== JavaScript Map ==================== *)
(** A [Map] whose iteration order is observed ([Array.from(items.values())])
    is kept as the list of its entries in insertion order. *)
Module JsMap.
Section Ops.
Context {V : Type}.

Definition t : Type := list (string * V).

Fixpoint get (k : string) (m : t) : option V :=
  match m with
  | [] => None
  | (k', v) :: m' => if String.eqb k' k then Some v else get k m'
  end.

Definition has (k : string) (m : t) : bool :=
  match get k m with Some _ => true | None => false end.

(** [set] keeps the position of a key that is already there and appends
    a new key at the end. *)
Fixpoint set (k : string) (v : V) (m : t) : t :=
  match m with
  | [] => [(k, v)]
  | (k', v') :: m' =>
      if String.eqb k' k then (k, v) :: m' else (k', v') :: set k v m'
  end.

Fixpoint delete (k : string) (m : t) : t :=
  match m with
  | [] => []
  | (k', v') :: m' =>
      if String.eqb k' k then delete k m' else (k', v') :: delete k m'
  end.

Definition size (m : t) : Z := Z.of_nat (List.length m).

Definition values (m : t) : list V := List.map snd m.

Definition clear (m : t) : t := [].
End Ops.
Arguments t : clear implicits.
End JsMap.

(* ==================== Inventory ==================== *)
Module Inventory.

Record t : Type := mk {
  items : JsMap.t Item.t;
  maxSlots : Z
}.

Definition new : t := mk [] 20.

Definition addItem (item : Item.t) (this : t) : t * bool :=
  if (maxSlots this <=? JsMap.size (items this))%Z then (this, false)
  else
    let blocked :=
      match JsMap.get (Item.id item) (items this) with
      | Some existingItem =>
          Item.canCollect existingItem && negb (Item.consumable existingItem)
      | None => false
      end in
    if blocked then (this, false)
    else (mk (JsMap.set (Item.id item) item (items this)) (maxSlots this), true).

Definition removeItem (itemId : string) (this : t) : t * bool :=
  if JsMap.has itemId (items this)
  then (mk (JsMap.delete itemId (items this)) (maxSlots this), true)
  else (this, false).

Definition hasItem (itemId : string) (this : t) : bool :=
  JsMap.has itemId (items this).

Definition getItem (itemId : string) (this : t) : option Item.t :=
  JsMap.get itemId (items this).

Definition getAllItems (this : t) : list Item.t :=
  JsMap.values (items this).

Definition getItemCount (this : t) : Z :=
  JsMap.size (items this).

Definition clear (this : t) : t :=
  mk (JsMap.clear (items this)) (maxSlots this).

End Inventory.

(* ==================== GameState ==================== *)
(** Both maps are only read by key; the values the engine stores are
    booleans. *)
Module GameState.

Record t : Type := mk {
  states : gmap string bool;
  flags : gmap string bool
}.

Definition new : t := mk ∅ ∅.

Definition set (key : string) (value : bool) (this : t) : t :=
  mk (<[key := value]> (states this)) (flags this).

(** [this.states.get(key) || false] *)
Definition get (key : string) (this : t) : bool :=
  match states this !! key with
  | Some v => v || false
  | None => false
  end.

Definition has (key : string) (this : t) : bool :=
  match states this !! key with Some _ => true | None => false end.

Definition setFlag (flag : string) (value : bool) (this : t) : t :=
  mk (states this) (<[flag := value]> (flags this)).

Definition hasFlag (flag : string) (this : t) : bool :=
  match flags this !! flag with
  | Some v => v || false
  | None => false
  end.

(** [Object.fromEntries]: the entries as an object, read by key. *)
Definition getAllStates (this : t) : gmap string bool := states this.

Definition getAllFlags (this : t) : gmap string bool := flags this.

End GameState.

(* ==================== TriggerCondition ==================== *)
Module TriggerCondition.

(** The [type] tag with the fields each tag reads; [other] stands for any
    tag the [switch] does not list. *)
Inductive t : Type :=
| has_item (targetItemId : string)
| no_item (targetItemId : string)
| state_equals (requiredState : string)
| always
| other (type : string).

Definition evaluate (this : t) (inventory : Inventory.t)
           (gameState : GameState.t) : bool :=
  match this with
  | has_item targetItemId => Inventory.hasItem targetItemId inventory
  | no_item targetItemId => negb (Inventory.hasItem targetItemId inventory)
  | state_equals requiredState =>
      Bool.eqb (GameState.get requiredState gameState) true
  | always => true
  | other _ => false
  end.

End TriggerCondition.

(* ==================== InteractionAction ==================== *)
Module InteractionAction.

Record MessagePayload : Type := mkMessage {
  title : string;
  message : string;
  hint : string
}.

Record RequirePayload : Type := mkRequire {
  itemId : string;
  failMessage : string;
  failHint : string
}.

(** The [type] tag with its payload; [unknown] stands for any tag the
    [switch] of [executeAction] does not list. *)
Inductive t : Type :=
| show_message (payload : MessagePayload)
| give_item (payload : string)
| require_item (payload : RequirePayload)
| consume_item (payload : string)
| check_password (correctPassword : string) (successActions : list t)
                 (pwFailMessage pwFailHint : string)
| set_state (key : string) (value : bool)
| unknown (type : string).

(** The payload object of a [check_password] action. *)
Record PasswordPayload : Type := mkPassword {
  pp_correctPassword : string;
  pp_successActions : list t;
  pp_failMessage : string;
  pp_failHint : string
}.

End InteractionAction.

(* ==================== Results ==================== *)
(** The object literals the methods return: [success] is always there, every
    other property is present in some of them only. *)
Module Outcome.

Record t : Type := mk {
  success : bool;
  type : option string;
  message : option string;
  title : option string;
  hint : option string;
  item : option Item.t;
  payload : option InteractionAction.PasswordPayload;
  progress : option Q;
  locked : option bool
}.

(** [{ success, message }] *)
Definition plain (success : bool) (message : string) : t :=
  mk success None (Some message) None None None None None None.

(** [{ success, type }] *)
Definition typed (success : bool) (type : string) : t :=
  mk success (Some type) None None None None None None None.

End Outcome.

(* ==================== Interaction ==================== *)
Module Interaction.

Record t : Type := mk {
  id : string;
  name : string;
  description : string;
  conditions : list TriggerCondition.t;
  actions : list InteractionAction.t;
  executed : bool
}.

Definition new (id name description : string)
           (conditions : list TriggerCondition.t)
           (actions : list InteractionAction.t) : t :=
  mk id name description conditions actions false.

Definition set_executed (v : bool) (this : t) : t :=
  mk (id this) (name this) (description this) (conditions this)
     (actions this) v.

Definition canExecute (this : t) (inventory : Inventory.t)
           (gameState : GameState.t) : bool :=
  forallb (fun condition => TriggerCondition.evaluate condition inventory gameState)
          (conditions this).

End Interaction.

(* ==================== SceneObject ==================== *)
Module SceneObject.

(** The position literal; the engine never reads it. *)
Record Position : Type := mkPosition { x : Q; y : Q; z : Q }.

Record t : Type := mk {
  id : string;
  name : string;
  description : string;
  position : Position;
  interactions : list Interaction.t;
  triggers : list TriggerCondition.t;
  collected : bool;
  consumed : bool
}.

Definition new (id name description : string) (position : Position) : t :=
  mk id name description position [] [] false false.

Definition set_interactions (v : list Interaction.t) (this : t) : t :=
  mk (id this) (name this) (description this) (position this) v
     (triggers this) (collected this) (consumed this).

Definition addInteraction (interaction : Interaction.t) (this : t) : t :=
  set_interactions (interactions this ++ [interaction]) this.

Definition addTrigger (trigger : TriggerCondition.t) (this : t) : t :=
  mk (id this) (name this) (description this) (position this)
     (interactions this) (triggers this ++ [trigger])
     (collected this) (consumed this).

End SceneObject.

(* ==================== PasswordSystem ==================== *)
Module PasswordSystem.

Record t : Type := mk {
  correctPassword : string;
  enteredPassword : string;
  maxAttempts : Z;
  attemptsLeft : Z;
  locked : bool
}.

Definition new (correctPassword : string) : t :=
  mk correctPassword EmptyString 3 3 false.

Definition set_enteredPassword (v : string) (this : t) : t :=
  mk (correctPassword this) v (maxAttempts this) (attemptsLeft this)
     (locked this).

Definition set_attemptsLeft (v : Z) (this : t) : t :=
  mk (correctPassword this) (enteredPassword this) (maxAttempts this) v
     (locked this).

Definition set_locked (v : bool) (this : t) : t :=
  mk (correctPassword this) (enteredPassword this) (maxAttempts this)
     (attemptsLeft this) v.

(** [{ success: true, progress: entered.length / correct.length }]; the
    quotient is kept as the fraction of the two lengths. *)
Definition progressOutcome (entered correct : string) : Outcome.t :=
  Outcome.mk true None None None None None None
    (Some (Qmake (Z.of_nat (String.length entered))
                 (Pos.of_nat (String.length correct))))
    None.

Definition msgLocked : string := "密码锁已锁定".
Definition msgFull : string := "密码已满".
Definition msgCorrect : string := "密码正确！锁已打开".
Definition msgWrongLocked : string := "密码错误，密码锁已锁定！".
Definition msgWrong (attemptsLeft : Z) : string :=
  "密码错误，剩余" +:+ NilZero.string_of_int (Z.to_int attemptsLeft)
    +:+ "次尝试机会".

Definition enterDigit (digit : string) (this : t) : t * Outcome.t :=
  if locked this then (this, Outcome.plain false msgLocked)
  else if (String.length (enteredPassword this)
             <? String.length (correctPassword this))%nat
  then
    let this := set_enteredPassword (enteredPassword this +:+ digit) this in
    (this, progressOutcome (enteredPassword this) (correctPassword this))
  else (this, Outcome.plain false msgFull).

Definition reset (this : t) : t :=
  let this := set_enteredPassword EmptyString this in
  let this := set_attemptsLeft (maxAttempts this) this in
  set_locked false this.

Definition submitPassword (this : t) : t * Outcome.t :=
  if locked this then (this, Outcome.plain false msgLocked)
  else if String.eqb (enteredPassword this) (correctPassword this)
  then (reset this, Outcome.plain true msgCorrect)
  else
    let this := set_attemptsLeft (attemptsLeft this - 1) this in
    let this := set_enteredPassword EmptyString this in
    if (attemptsLeft this <=? 0)%Z
    then
      let this := set_locked true this in
      (this, Outcome.mk false None (Some msgWrongLocked) None None None None
                        None (Some true))
    else (this, Outcome.plain false (msgWrong (attemptsLeft this))).

(** ['*'.repeat(n)] *)
Fixpoint stars (n : nat) : string :=
  match n with
  | O => EmptyString
  | S n' => String "*" (stars n')
  end.

Definition getDisplay (this : t) : string :=
  stars (String.length (enteredPassword this)).

End PasswordSystem.

(* ==================== ClueSystem ==================== *)
Module ClueSystem.

(** [items] is the object literal of item templates, read by own key. *)
Record t : Type := mk {
  inventory : Inventory.t;
  gameState : GameState.t;
  passwordSystem : PasswordSystem.t;
  sceneObjects : gmap string SceneObject.t;
  interactions : gmap string Interaction.t;
  items : gmap string Item.t
}.

Definition set_inventory (v : Inventory.t) (this : t) : t :=
  mk v (gameState this) (passwordSystem this) (sceneObjects this)
     (interactions this) (items this).

Definition set_gameState (v : GameState.t) (this : t) : t :=
  mk (inventory this) v (passwordSystem this) (sceneObjects this)
     (interactions this) (items this).

Definition set_passwordSystem (v : PasswordSystem.t) (this : t) : t :=
  mk (inventory this) (gameState this) v (sceneObjects this)
     (interactions this) (items this).

Definition set_sceneObjects (v : gmap string SceneObject.t) (this : t) : t :=
  mk (inventory this) (gameState this) (passwordSystem this) v
     (interactions this) (items this).

Definition set_items (v : gmap string Item.t) (this : t) : t :=
  mk (inventory this) (gameState this) (passwordSystem this)
     (sceneObjects this) (interactions this) v.

(** [this.sceneObjects.get(id).addInteraction(interaction)] *)
Definition addInteractionTo (id : string) (interaction : Interaction.t)
           (this : t) : t :=
  set_sceneObjects
    (alter (SceneObject.addInteraction interaction) id (sceneObjects this))
    this.

Definition trashInteraction : Interaction.t :=
  Interaction.new "trash_search" "翻找垃圾桶" "在垃圾桶里翻找"
    [TriggerCondition.always]
    [InteractionAction.give_item "crumpled_paper";
     InteractionAction.show_message
       (InteractionAction.mkMessage
          "📄 发现线索"
          "你在垃圾桶里找到了一张皱巴巴的纸团，上面潦草地写着数字：7-2-4-9"
          "也许这是某个锁的密码？")].

Definition plantInteraction : Interaction.t :=
  Interaction.new "plant_check" "检查盆栽" "检查盆栽土壤"
    [TriggerCondition.no_item "small_key"]
    [InteractionAction.give_item "small_key";
     InteractionAction.show_message
       (InteractionAction.mkMessage
          "🔑 发现钥匙"
          "你在花盆的土壤里发现了一把银色的小钥匙！这把钥匙看起来可以打开什么东西..."
          "去书桌抽屉试试看？")].

Definition drawerInteraction : Interaction.t :=
  Interaction.new "drawer_open" "打开抽屉" "尝试打开书桌抽屉"
    [TriggerCondition.always]
    [InteractionAction.require_item
       (InteractionAction.mkRequire
          "small_key"
          "❌ 需要小钥匙"
          "抽屉被锁住了，需要找到钥匙。试着在房间里搜索一下...");
     InteractionAction.consume_item "small_key";
     InteractionAction.give_item "diary";
     InteractionAction.show_message
       (InteractionAction.mkMessage
          "📔 获得日记"
          ("抽屉打开了！你发现了一本日记。" +:+ nl +:+ nl
             +:+ "日记的最后一页写着：" +:+ dq
             +:+ "记住，密码锁的顺序是反的..." +:+ dq)
          "密码顺序是反的！7-2-4-9反过来就是9-4-2-7")].

Definition safeSuccessActions : list InteractionAction.t :=
  [InteractionAction.give_item "golden_key";
   InteractionAction.show_message
     (InteractionAction.mkMessage
        "🎉 保险箱打开了！"
        ("咔哒！保险箱打开了！" +:+ nl +:+ nl
           +:+ "里面有一把金色的钥匙，这一定是打开房门的钥匙！")
        "带着这把钥匙去开门吧！")].

Definition safeInteraction : Interaction.t :=
  Interaction.new "safe_open" "打开保险箱" "尝试打开保险箱"
    [TriggerCondition.always]
    [InteractionAction.check_password "9427" safeSuccessActions
       "❌ 密码错误" "再想想其他线索..."].

Definition doorInteraction : Interaction.t :=
  Interaction.new "door_unlock" "开门" "尝试打开房门"
    [TriggerCondition.always]
    [InteractionAction.require_item
       (InteractionAction.mkRequire
          "golden_key"
          "❌ 需要金钥匙"
          "门被牢牢锁住了，需要找到钥匙...");
     InteractionAction.show_message
       (InteractionAction.mkMessage
          "🚪 成功逃脱！"
          ("你用金钥匙打开了房门！" +:+ nl +:+ nl
             +:+ "Congratulations! 你成功逃脱了密室！")
          "🎉 游戏通关！");
     InteractionAction.set_state "gameComplete" true].

Definition initInteractions (this : t) : t :=
  let this := addInteractionTo "trash_bin" trashInteraction this in
  let this := addInteractionTo "plant" plantInteraction this in
  let this := addInteractionTo "desk_drawer" drawerInteraction this in
  let this := addInteractionTo "safe" safeInteraction this in
  let this := addInteractionTo "door" doorInteraction this in
  this.

Definition initGameData (this : t) : t :=
  let this :=
    set_items
      (<["small_key" :=
           Item.new "small_key" "🔑 小钥匙" "一把银色的小钥匙，可以打开抽屉" "🔑" true]>
      (<["golden_key" :=
           Item.new "golden_key" "🔑 金钥匙" "一把金色的钥匙，这是打开房门的钥匙！" "🔑" true]>
      (<["crumpled_paper" :=
           Item.new "crumpled_paper" "📄 皱纸团" "从垃圾桶里找到的纸团，上面写着：7-2-4-9" "📄" true]>
      (<["diary" :=
           Item.new "diary" "📔 日记本" "日记最后一页：记住，密码锁的顺序是反的" "📔" true]>
       ∅)))) this in
  let this :=
    set_items (alter (Item.set_consumable true) "small_key" (items this)) this in
  let this :=
    set_items (alter (Item.set_consumable true) "golden_key" (items this)) this in
  let this :=
    set_sceneObjects
      (<["trash_bin" :=
           SceneObject.new "trash_bin" "🗑️ 垃圾桶" "一个金属垃圾桶"
             (SceneObject.mkPosition 1.5 0 0.5)]>
      (<["plant" :=
           SceneObject.new "plant" "🪴 盆栽" "一盆枯萎的绿植"
             (SceneObject.mkPosition 2.5 0 1.5)]>
      (<["desk_drawer" :=
           SceneObject.new "desk_drawer" "🗝️ 书桌抽屉" "需要钥匙才能打开"
             (SceneObject.mkPosition (-2) 0.8 1.5)]>
      (<["safe" :=
           SceneObject.new "safe" "🔒 保险箱" "需要输入4位密码"
             (SceneObject.mkPosition 2.8 1.8 (-2))]>
      (<["door" :=
           SceneObject.new "door" "🚪 房门" "被密码锁锁住了"
             (SceneObject.mkPosition 2.5 1.15 0)]>
       ∅))))) this in
  initInteractions this.

(** [new ClueSystem()] *)
Definition new : t :=
  initGameData
    (mk Inventory.new GameState.new (PasswordSystem.new "9427") ∅ ∅ ∅).

Definition msgNoObject : string := "错误：对象不存在".
Definition msgNothingSpecial : string := "这个物品没有什么特别的...".
Definition msgCannotNow : string := "现在不能这样做...".
Definition msgDone : string := "操作完成".
Definition msgNoItem : string := "错误：物品不存在".
Definition msgCannotGet : string := "无法获得物品".
Definition msgCannotConsume : string := "无法消耗物品".
Definition msgUnknownAction : string := "未知动作".

(** [{ success: true, type: 'show_message', ...action.payload }] *)
Definition messageOutcome (payload : InteractionAction.MessagePayload)
  : Outcome.t :=
  Outcome.mk true (Some "show_message")
    (Some (InteractionAction.message payload))
    (Some (InteractionAction.title payload))
    (Some (InteractionAction.hint payload))
    None None None None.

(** [{ success: true, type, item }] *)
Definition itemOutcome (type : string) (item : Item.t) : Outcome.t :=
  Outcome.mk true (Some type) None None None (Some item) None None None.

Definition executeAction (action : InteractionAction.t) (this : t)
  : t * Outcome.t :=
  match action with
  | InteractionAction.show_message payload =>
      (this, messageOutcome payload)
  | InteractionAction.give_item payload =>
      match items this !! payload with
      | None => (this, Outcome.plain false msgNoItem)
      | Some item =>
          if Inventory.hasItem (Item.id item) (inventory this)
          then (this, itemOutcome "item_owned" item)
          else
            let '(inventory', added) :=
              Inventory.addItem (Item.clone item) (inventory this) in
            let this := set_inventory inventory' this in
            if added then (this, itemOutcome "item_received" item)
            else (this, Outcome.plain false msgCannotGet)
      end
  | InteractionAction.require_item payload =>
      if Inventory.hasItem (InteractionAction.itemId payload) (inventory this)
      then (this, Outcome.typed true "requirement_met")
      else
        (this,
         Outcome.mk false (Some "requirement_missing")
           (Some (InteractionAction.failMessage payload)) None
           (Some (InteractionAction.failHint payload))
           None None None None)
  | InteractionAction.consume_item payload =>
      let '(inventory', removed) :=
        Inventory.removeItem payload (inventory this) in
      let this := set_inventory inventory' this in
      if removed then (this, Outcome.typed true "item_consumed")
      else (this, Outcome.plain false msgCannotConsume)
  | InteractionAction.check_password correctPassword successActions
                                     failMessage failHint =>
      (this,
       Outcome.mk true (Some "password_required") None None None None
         (Some (InteractionAction.mkPassword correctPassword successActions
                  failMessage failHint))
         None None)
  | InteractionAction.set_state key value =>
      (set_gameState (GameState.set key value (gameState this)) this,
       Outcome.typed true "state_set")
  | InteractionAction.unknown _ =>
      (this, Outcome.plain false msgUnknownAction)
  end.

Fixpoint executeActions (actions : list InteractionAction.t) (this : t)
  : t * Outcome.t :=
  match actions with
  | [] => (this, Outcome.plain true msgDone)
  | action :: rest =>
      let '(this, result) := executeAction action this in
      if negb (Outcome.success result) then (this, result)
      else executeActions rest this
  end.

Definition interact (objectId : string) (this : t) : t * Outcome.t :=
  match sceneObjects this !! objectId with
  | None => (this, Outcome.plain false msgNoObject)
  | Some object =>
      match SceneObject.interactions object with
      | [] => (this, Outcome.plain false msgNothingSpecial)
      | interaction :: others =>
          if negb (Interaction.canExecute interaction (inventory this)
                     (gameState this))
          then (this, Outcome.plain false msgCannotNow)
          else
            let '(this, result) :=
              executeActions (Interaction.actions interaction) this in
            if Outcome.success result
            then
              let object :=
                SceneObject.set_interactions
                  (Interaction.set_executed true interaction :: others)
                  object in
              (set_sceneObjects (<[objectId := object]> (sceneObjects this))
                 this,
               result)
            else (this, result)
      end
  end.

Definition enterPasswordDigit (digit : string) (this : t) : t * Outcome.t :=
  let '(passwordSystem', result) :=
    PasswordSystem.enterDigit digit (passwordSystem this) in
  (set_passwordSystem passwordSystem' this, result).

Definition submitPassword (this : t) : t * Outcome.t :=
  let '(passwordSystem', result) :=
    PasswordSystem.submitPassword (passwordSystem this) in
  let this := set_passwordSystem passwordSystem' this in
  if Outcome.success result
  then
    let this :=
      set_gameState (GameState.setFlag "safeOpened" true (gameState this))
        this in
    let this :=
      set_gameState (GameState.set "safePasswordKnown" true (gameState this))
        this in
    (this, result)
  else (this, result).

Definition getPasswordDisplay (this : t) : string :=
  PasswordSystem.getDisplay (passwordSystem this).

Definition getInventory (this : t) : list Item.t :=
  Inventory.getAllItems (inventory this).

Definition hasItem (itemId : string) (this : t) : bool :=
  Inventory.hasItem itemId (inventory this).

Definition isGameComplete (this : t) : bool :=
  GameState.get "gameComplete" (gameState this).

(** The object [getDebugInfo] returns; [debugLogger] is the global logger
    it reads. *)
Record DebugInfo : Type := mkDebugInfo {
  di_inventory : list (string * string);
  di_states : gmap string bool;
  di_flags : gmap string bool;
  di_logs : list DebugLogger.LogEntry
}.

Definition getDebugInfo (this : t) (debugLogger : DebugLogger.t) : DebugInfo :=
  mkDebugInfo
    (List.map (fun i => (Item.id i, Item.name i))
       (Inventory.getAllItems (inventory this)))
    (GameState.getAllStates (gameState this))
    (GameState.getAllFlags (gameState this))
    (DebugLogger.getLogs debugLogger).

End ClueSystem.

(* ==================== ClueSystemTests ==================== *)
(** The [passed] value of the unit tests that drive [interact].  [===]
    against a property that may be missing compares an [option]; reading a
    property of [undefined] throws, which is [None] here. *)
Module ClueSystemTests.

Definition strictEq (v : option string) (s : string) : bool :=
  match v with
  | Some v => String.eqb v s
  | None => false
  end.

Definition testNoKeyShowMessage : bool :=
  let system := ClueSystem.new in
  let system :=
    ClueSystem.set_inventory (Inventory.clear (ClueSystem.inventory system))
      system in
  let '(system, result) := ClueSystem.interact "desk_drawer" system in
  strictEq (Outcome.type result) "requirement_missing"
  && strictEq (Outcome.message result) "❌ 需要小钥匙".

Definition testWithKeySuccess : option bool :=
  let system := ClueSystem.new in
  let system :=
    match ClueSystem.items system !! "small_key" with
    | Some template =>
        ClueSystem.set_inventory
          (fst (Inventory.addItem (Item.clone template)
                  (ClueSystem.inventory system)))
          system
    | None => system
    end in
  let '(system, result) := ClueSystem.interact "desk_drawer" system in
  if strictEq (Outcome.type result) "item_received"
  then
    match Outcome.item result with
    | Some item =>
        Some (String.eqb (Item.id item) "diary"
              && negb (Inventory.hasItem "small_key"
                         (ClueSystem.inventory system)))
    | None => None
    end
  else Some false.

Definition testCorrectPasswordOpenDoor : bool :=
  let system := ClueSystem.new in
  let system :=
    ClueSystem.set_gameState
      (GameState.setFlag "safeOpened" true (ClueSystem.gameState system))
      system in
  let system :=
    match ClueSystem.items system !! "golden_key" with
    | Some template =>
        ClueSystem.set_inventory
          (fst (Inventory.addItem (Item.clone template)
                  (ClueSystem.inventory system)))
          system
    | None => system
    end in
  let '(system, result) := ClueSystem.interact "door" system in
  strictEq (Outcome.type result) "show_message"
  && strictEq (Outcome.title result) "🚪 成功逃脱！"
  && ClueSystem.isGameComplete system.

End ClueSystemTests.

(* ==================== Runs of the lock ==================== *)
(** Sequences of calls on one [PasswordSystem], to state what holds after
    any history of calls. *)
Module LockTrace.

Inductive op : Type :=
| Enter (digit : string)
| Submit
| Reset.

Definition step (l : PasswordSystem.t) (o : op) : PasswordSystem.t :=
  match o with
  | Enter digit => fst (PasswordSystem.enterDigit digit l)
  | Submit => fst (PasswordSystem.submitPassword l)
  | Reset => PasswordSystem.reset l
  end.

Definition run (ops : list op) (l : PasswordSystem.t) : PasswordSystem.t :=
  fold_left step ops l.

Definition enterDigits (digits : list string) (l : PasswordSystem.t)
  : PasswordSystem.t :=
  run (List.map Enter digits) l.

(** The argument of every [enterDigit] call is one character. *)
Definition oneDigit (o : op) : Prop :=
  match o with
  | Enter digit => String.length digit = 1%nat
  | _ => True
  end.

Definition notReset (o : op) : Prop :=
  match o with
  | Reset => False
  | _ => True
  end.

(** What every history of calls keeps: the entered string is no longer
    than the code, and a locked lock has nothing entered and a code that is
    not empty. *)
Definition invariant (l : PasswordSystem.t) : Prop :=
  (String.length (PasswordSystem.enteredPassword l)
   <= String.length (PasswordSystem.correctPassword l))%nat
  /\ (PasswordSystem.locked l = true ->
      PasswordSystem.enteredPassword l = EmptyString
      /\ PasswordSystem.correctPassword l <> EmptyString).

(** The characters of a code, each as the one-character string a keypad
    passes to [enterDigit]. *)
Fixpoint digitsOf (code : string) : list string :=
  match code with
  | EmptyString => []
  | String c rest => String c EmptyString :: digitsOf rest
  end.

End LockTrace.

(* ==================== Runs of the inventory ==================== *)
(** Sequences of calls on one [Inventory]. *)
Module InventoryTrace.

Inductive op : Type :=
| Add (item : Item.t)
| Remove (itemId : string)
| Clear.

Definition step (inv : Inventory.t) (o : op) : Inventory.t :=
  match o with
  | Add item => fst (Inventory.addItem item inv)
  | Remove itemId => fst (Inventory.removeItem itemId inv)
  | Clear => Inventory.clear inv
  end.

Definition run (ops : list op) (inv : Inventory.t) : Inventory.t :=
  fold_left step ops inv.

(** The shape of a [Map] filled by [addItem]: no key twice, every item
    under its own identifier, and no more entries than slots. *)
Definition wellFormed (inv : Inventory.t) : Prop :=
  List.NoDup (List.map fst (Inventory.items inv))
  /\ List.Forall (fun kv => Item.id (snd kv) = fst kv) (Inventory.items inv)
  /\ (Inventory.getItemCount inv <= Inventory.maxSlots inv)%Z.

End InventoryTrace.

(* ==================== Runs of the engine ==================== *)
(** Sequences of calls on one [ClueSystem] through its public methods. *)
Module EngineTrace.

Inductive op : Type :=
| Interact (objectId : string)
| EnterPasswordDigit (digit : string)
| SubmitPassword.

Definition step (s : ClueSystem.t) (o : op) : ClueSystem.t :=
  match o with
  | Interact objectId => fst (ClueSystem.interact objectId s)
  | EnterPasswordDigit digit => fst (ClueSystem.enterPasswordDigit digit s)
  | SubmitPassword => fst (ClueSystem.submitPassword s)
  end.

Definition run (ops : list op) (s : ClueSystem.t) : ClueSystem.t :=
  fold_left step ops s.

(** Every action of the list, executed in order, reports success. *)
Fixpoint allSucceed (actions : list InteractionAction.t) (s : ClueSystem.t)
  : bool :=
  match actions with
  | [] => true
  | action :: rest =>
      let '(s, result) := ClueSystem.executeAction action s in
      Outcome.success result && allSucceed rest s
  end.

(** The state the actions of the list leave behind. *)
Fixpoint stateAfter (actions : list InteractionAction.t) (s : ClueSystem.t)
  : ClueSystem.t :=
  match actions with
  | [] => s
  | action :: rest => stateAfter rest (fst (ClueSystem.executeAction action s))
  end.

(** The templates are stored under their own identifiers. *)
Definition catalogKeyed (s : ClueSystem.t) : Prop :=
  forall key item,
    ClueSystem.items s !! key = Some item -> Item.id item = key.

(** Every held identifier is the key of a template. *)
Definition heldFromCatalog (s : ClueSystem.t) : Prop :=
  forall itemId,
    ClueSystem.hasItem itemId s = true ->
    exists item, ClueSystem.items s !! itemId = Some item.

(** The golden key is not held and the game is not complete. *)
Definition noKeyNoWin (s : ClueSystem.t) : Prop :=
  ClueSystem.hasItem "golden_key" s = false
  /\ ClueSystem.isGameComplete s = false.

(** An action that neither grants the golden key nor writes the
    [gameComplete] state. *)
Definition safeAction (a : InteractionAction.t) : bool :=
  match a with
  | InteractionAction.give_item payload => negb (String.eqb payload "golden_key")
  | InteractionAction.set_state key _ => negb (String.eqb key "gameComplete")
  | _ => true
  end.

(** An action list whose top-level actions are safe up to its end or up to
    a requirement of the golden key, whichever comes first. *)
Fixpoint harmless (actions : list InteractionAction.t) : bool :=
  match actions with
  | [] => true
  | InteractionAction.require_item payload :: rest =>
      String.eqb (InteractionAction.itemId payload) "golden_key"
      || harmless rest
  | a :: rest => safeAction a && harmless rest
  end.

(** The first interaction of every scene object is harmless. *)
Definition sceneHarmless (s : ClueSystem.t) : Prop :=
  map_Forall
    (fun _ object =>
       match SceneObject.interactions object with
       | [] => True
       | interaction :: _ => harmless (Interaction.actions interaction) = true
       end)
    (ClueSystem.sceneObjects s).

End EngineTrace.

(* ==================== The specified dispatch ==================== *)
Module Specified.

(** Section 4.5, step 6 of the specification, in its words: the action
    list is executed in order, stops at the first failing action with that
    action's outcome, and otherwise returns the outcome of the last
    executed action.  [last] is the outcome of the action executed before
    [actions]. *)
Fixpoint executeActionsFrom (last : Outcome.t)
         (actions : list InteractionAction.t) (this : ClueSystem.t)
  : ClueSystem.t * Outcome.t :=
  match actions with
  | [] => (this, last)
  | action :: rest =>
      let '(this, result) := ClueSystem.executeAction action this in
      if negb (Outcome.success result) then (this, result)
      else executeActionsFrom result rest this
  end.

Definition executeActions (actions : list InteractionAction.t)
           (this : ClueSystem.t) : ClueSystem.t * Outcome.t :=
  executeActionsFrom (Outcome.plain true ClueSystem.msgDone) actions this.

End Specified.

(* ==================== Properties: the combination lock ==================== *)
Section LockFacts.
Import PasswordSystem.

Lemma length_append (a b : string) :
  String.length (a +:+ b) = (String.length a + String.length b)%nat.
Proof. induction a as [|c a IH]; simpl; [reflexivity | now rewrite IH]. Qed.

Lemma length_zero_empty (a : string) :
  String.length a = 0%nat -> a = EmptyString.
Proof. destruct a; [reflexivity | discriminate]. Qed.

Lemma length_stars (n : nat) : String.length (stars n) = n.
Proof. induction n as [|n IH]; simpl; [reflexivity | now rewrite IH]. Qed.

(** A locked lock rejects both calls and is left as it was. *)
Lemma enterDigit_locked (l : t) (digit : string) :
  locked l = true -> enterDigit digit l = (l, Outcome.plain false msgLocked).
Proof. intros H. unfold enterDigit. now rewrite H. Qed.

Lemma submitPassword_locked (l : t) :
  locked l = true -> submitPassword l = (l, Outcome.plain false msgLocked).
Proof. intros H. unfold submitPassword. now rewrite H. Qed.

Lemma run_locked (ops : list LockTrace.op) (l : t) :
  locked l = true -> Forall LockTrace.notReset ops -> LockTrace.run ops l = l.
Proof.
  intros Hl Hops. induction Hops as [|o ops Ho _ IH]; [reflexivity|].
  unfold LockTrace.run in *. simpl.
  destruct o as [digit| |]; simpl in *.
  - rewrite (enterDigit_locked l digit Hl). exact IH.
  - rewrite (submitPassword_locked l Hl). exact IH.
  - contradiction.
Qed.

(** One wrong submission of a lock that is not locked. *)
Lemma submitPassword_wrong (l : t) :
  locked l = false ->
  enteredPassword l <> correctPassword l ->
  submitPassword l =
    if (attemptsLeft l - 1 <=? 0)%Z
    then (mk (correctPassword l) EmptyString (maxAttempts l)
             (attemptsLeft l - 1) true,
          Outcome.mk false None (Some msgWrongLocked) None None None None
                     None (Some true))
    else (mk (correctPassword l) EmptyString (maxAttempts l)
             (attemptsLeft l - 1) false,
          Outcome.plain false (msgWrong (attemptsLeft l - 1))).
Proof.
  intros Hl Hne. unfold submitPassword. rewrite Hl.
  destruct (String.eqb_spec (enteredPassword l) (correctPassword l)) as [E|_];
    [contradiction|].
  unfold set_locked, set_enteredPassword, set_attemptsLeft; cbn.
  destruct (attemptsLeft l - 1 <=? 0)%Z; [reflexivity|].
  now rewrite Hl.
Qed.

(** Entering digits changes the entered string only. *)
Lemma enterDigit_frame (l : t) (digit : string) :
  let l' := fst (enterDigit digit l) in
  correctPassword l' = correctPassword l /\ maxAttempts l' = maxAttempts l
  /\ attemptsLeft l' = attemptsLeft l /\ locked l' = locked l.
Proof.
  unfold enterDigit. destruct (locked l) eqn:Hl.
  - cbn. now rewrite Hl.
  - destruct (Nat.ltb _ _); cbn; now rewrite ?Hl.
Qed.

Lemma enterDigits_frame (digits : list string) (l : t) :
  let l' := LockTrace.enterDigits digits l in
  correctPassword l' = correctPassword l /\ maxAttempts l' = maxAttempts l
  /\ attemptsLeft l' = attemptsLeft l /\ locked l' = locked l.
Proof.
  revert l. unfold LockTrace.enterDigits, LockTrace.run.
  induction digits as [|d ds IH]; intros l; simpl; [now repeat split|].
  destruct (IH (fst (enterDigit d l))) as (A & B & C & D).
  destruct (enterDigit_frame l d) as (A' & B' & C' & D').
  simpl in *. repeat split; congruence.
Qed.

End LockFacts.

Section LockClaims.
Import PasswordSystem.

Lemma enterDigits_empty_code (digits : list string) (l : t) :
  correctPassword l = EmptyString ->
  enteredPassword (LockTrace.enterDigits digits l) = enteredPassword l.
Proof.
  revert l. unfold LockTrace.enterDigits, LockTrace.run.
  induction digits as [|d ds IH]; intros l Hc; simpl; [reflexivity|].
  assert (Hstep : fst (enterDigit d l) = l).
  { unfold enterDigit. destruct (locked l); [reflexivity|].
    rewrite Hc. cbn [String.length].
    destruct (Nat.ltb_spec (String.length (enteredPassword l)) 0);
      [lia | reflexivity]. }
  rewrite Hstep. now apply IH.
Qed.

(** A round of the lock: any digits, then a submission that does not
    match, on a lock that is not locked. *)
Lemma wrong_round (digits : list string) (l : t) :
  locked l = false ->
  enteredPassword (LockTrace.enterDigits digits l) <> correctPassword l ->
  submitPassword (LockTrace.enterDigits digits l) =
    if (attemptsLeft l - 1 <=? 0)%Z
    then (mk (correctPassword l) EmptyString (maxAttempts l)
             (attemptsLeft l - 1) true,
          Outcome.mk false None (Some msgWrongLocked) None None None None
                     None (Some true))
    else (mk (correctPassword l) EmptyString (maxAttempts l)
             (attemptsLeft l - 1) false,
          Outcome.plain false (msgWrong (attemptsLeft l - 1))).
Proof.
  intros Hl Hne.
  destruct (enterDigits_frame digits l) as (C & M & A & L).
  rewrite submitPassword_wrong by congruence.
  now rewrite C, M, A.
Qed.

End LockClaims.

(** C4.  On a fresh lock (three attempts), a round of entered digits followed
    by a submission that does not match the code takes one attempt away,
    clears the entered digits and returns a failure.  The third such round in
    a row locks the lock and its failure carries [locked: true]; from then on
    every [enterDigit] and [submitPassword] call returns the locked failure
    and changes nothing, whatever calls were made in between, and [reset]
    makes the lock usable again. *)
Theorem lock_three_wrong_submissions
  (pw : string) (ds1 ds2 ds3 : list string)
  (later : list LockTrace.op) (d : string) :
  let a1 := LockTrace.enterDigits ds1 (PasswordSystem.new pw) in
  let b1 := fst (PasswordSystem.submitPassword a1) in
  let a2 := LockTrace.enterDigits ds2 b1 in
  let b2 := fst (PasswordSystem.submitPassword a2) in
  let a3 := LockTrace.enterDigits ds3 b2 in
  let b3 := fst (PasswordSystem.submitPassword a3) in
  let after := LockTrace.run later b3 in
  PasswordSystem.enteredPassword a1 <> pw ->
  PasswordSystem.enteredPassword a2 <> pw ->
  PasswordSystem.enteredPassword a3 <> pw ->
  Forall LockTrace.notReset later ->
  (PasswordSystem.attemptsLeft a1 = 3
   /\ PasswordSystem.attemptsLeft b1 = 2
   /\ PasswordSystem.enteredPassword b1 = EmptyString
   /\ PasswordSystem.locked b1 = false
   /\ snd (PasswordSystem.submitPassword a1)
      = Outcome.plain false (PasswordSystem.msgWrong 2))
  /\ (PasswordSystem.attemptsLeft b2 = 1
      /\ PasswordSystem.enteredPassword b2 = EmptyString
      /\ PasswordSystem.locked b2 = false
      /\ snd (PasswordSystem.submitPassword a2)
         = Outcome.plain false (PasswordSystem.msgWrong 1))
  /\ (PasswordSystem.attemptsLeft b3 = 0
      /\ PasswordSystem.enteredPassword b3 = EmptyString
      /\ PasswordSystem.locked b3 = true
      /\ Outcome.success (snd (PasswordSystem.submitPassword a3)) = false
      /\ Outcome.locked (snd (PasswordSystem.submitPassword a3)) = Some true)
  /\ (after = b3
      /\ PasswordSystem.enterDigit d after
         = (after, Outcome.plain false PasswordSystem.msgLocked)
      /\ PasswordSystem.submitPassword after
         = (after, Outcome.plain false PasswordSystem.msgLocked))
  /\ (PasswordSystem.locked (PasswordSystem.reset after) = false
      /\ PasswordSystem.attemptsLeft (PasswordSystem.reset after) = 3
      /\ PasswordSystem.enteredPassword (PasswordSystem.reset after) = EmptyString
      /\ Outcome.success (snd (PasswordSystem.enterDigit d (PasswordSystem.reset after)))
         = true).
Proof.
  intros a1 b1 a2 b2 a3 b3 after H1 H2 H3 Hlater.
  assert (Hpw : pw <> EmptyString).
  { intros ->. apply H1. unfold a1.
    now rewrite enterDigits_empty_code. }
  destruct (enterDigits_frame ds1 (PasswordSystem.new pw)) as (_ & _ & A1 & _).
  fold a1 in A1. cbn in A1.
  pose proof (wrong_round ds1 (PasswordSystem.new pw) eq_refl H1) as R1.
  fold a1 in R1. cbn in R1.
  change (3 - 1 <=? 0)%Z with false in R1. change (3 - 1) with 2 in R1.
  assert (B1 : b1 = PasswordSystem.mk pw EmptyString 3 2 false)
    by (unfold b1; now rewrite R1).
  pose proof (wrong_round ds2 b1) as R2. fold a2 in R2.
  rewrite B1 in R2. specialize (R2 eq_refl H2). cbn in R2.
  change (2 - 1 <=? 0)%Z with false in R2. change (2 - 1) with 1 in R2.
  assert (B2 : b2 = PasswordSystem.mk pw EmptyString 3 1 false)
    by (unfold b2; now rewrite R2).
  pose proof (wrong_round ds3 b2) as R3. fold a3 in R3.
  rewrite B2 in R3. specialize (R3 eq_refl H3). cbn in R3.
  change (1 - 1 <=? 0)%Z with true in R3. change (1 - 1) with 0 in R3.
  assert (B3 : b3 = PasswordSystem.mk pw EmptyString 3 0 true)
    by (unfold b3; now rewrite R3).
  assert (Hafter : after = b3).
  { unfold after. apply run_locked; [now rewrite B3 | exact Hlater]. }
  repeat split; try (rewrite ?Hafter, ?B1, ?B2, ?B3, ?R1, ?R2, ?R3; reflexivity);
    try assumption.
  rewrite Hafter, B3. unfold PasswordSystem.enterDigit, PasswordSystem.reset.
  cbn. destruct pw as [|c pw']; [contradiction | reflexivity].
Qed.

(** The rounds of C4 on the game's lock: 1-2-3-4 submitted three times
    against 9427. *)
Lemma lock_three_wrong_submissions_witness :
  let round := LockTrace.enterDigits ["1"; "2"; "3"; "4"] in
  let b3 :=
    fst (PasswordSystem.submitPassword (round
      (fst (PasswordSystem.submitPassword (round
        (fst (PasswordSystem.submitPassword (round
          (PasswordSystem.new "9427"))))))))) in
  PasswordSystem.locked b3 = true
  /\ PasswordSystem.enterDigit "9" b3
     = (b3, Outcome.plain false PasswordSystem.msgLocked)
  /\ PasswordSystem.locked (PasswordSystem.reset b3) = false.
Proof.
  intros round b3.
  destruct (lock_three_wrong_submissions "9427"
              ["1"; "2"; "3"; "4"] ["1"; "2"; "3"; "4"] ["1"; "2"; "3"; "4"]
              [LockTrace.Enter "9"; LockTrace.Submit] "9")
    as (_ & _ & (_ & _ & L3 & _) & (Hafter & E & _) & (R & _)).
  - vm_compute. discriminate.
  - vm_compute. discriminate.
  - vm_compute. discriminate.
  - repeat constructor.
  - rewrite Hafter in E, R. repeat split; assumption.
Defined.

Section LockInvariant.
Import PasswordSystem.

Lemma step_correctPassword (l : t) (o : LockTrace.op) :
  correctPassword (LockTrace.step l o) = correctPassword l.
Proof.
  destruct o as [digit| |]; simpl.
  - apply enterDigit_frame.
  - unfold submitPassword. destruct (locked l); [reflexivity|].
    destruct (String.eqb _ _); [reflexivity|].
    unfold set_locked, set_enteredPassword, set_attemptsLeft; cbn.
    now destruct (_ <=? _)%Z.
  - reflexivity.
Qed.

(** The length bound alone is kept by every call, from any state. *)
Lemma step_preserves_bound (l : t) (o : LockTrace.op) :
  LockTrace.oneDigit o ->
  (String.length (enteredPassword l) <= String.length (correctPassword l))%nat ->
  (String.length (enteredPassword (LockTrace.step l o))
   <= String.length (correctPassword (LockTrace.step l o)))%nat.
Proof.
  intros Ho Hb. rewrite step_correctPassword.
  destruct o as [digit| |]; simpl in *.
  - unfold enterDigit. destruct (locked l); [exact Hb|].
    destruct (Nat.ltb_spec (String.length (enteredPassword l))
                           (String.length (correctPassword l))) as [Hlt|Hge];
      cbn; [|exact Hb].
    rewrite length_append, Ho. lia.
  - unfold submitPassword. destruct (locked l); [exact Hb|].
    destruct (String.eqb _ _); cbn; [lia|].
    unfold set_locked, set_enteredPassword, set_attemptsLeft; cbn.
    destruct (_ <=? _)%Z; cbn; lia.
  - cbn. lia.
Qed.

Lemma step_invariant (l : t) (o : LockTrace.op) :
  LockTrace.oneDigit o ->
  LockTrace.invariant l -> LockTrace.invariant (LockTrace.step l o).
Proof.
  intros Ho [Hb Hl]. split; [now apply step_preserves_bound|].
  rewrite step_correctPassword.
  destruct o as [digit| |]; simpl in *.
  - unfold enterDigit. destruct (locked l) eqn:El; [cbn; now rewrite El|].
    destruct (Nat.ltb _ _); cbn; rewrite El; discriminate.
  - unfold submitPassword. destruct (locked l) eqn:El; [cbn; now rewrite El|].
    destruct (String.eqb_spec (enteredPassword l) (correctPassword l)) as [E|N];
      [cbn; discriminate|].
    unfold set_locked, set_enteredPassword, set_attemptsLeft; cbn.
    destruct (_ <=? _)%Z; cbn; [|rewrite El; discriminate].
    intros _. split; [reflexivity|].
    intros Hc. apply N. rewrite Hc in *.
    apply length_zero_empty. cbn in Hb. lia.
  - cbn. discriminate.
Qed.

Lemma run_invariant (ops : list LockTrace.op) (l : t) :
  Forall LockTrace.oneDigit ops ->
  LockTrace.invariant l ->
  LockTrace.invariant (LockTrace.run ops l)
  /\ correctPassword (LockTrace.run ops l) = correctPassword l.
Proof.
  intros Hops. revert l. unfold LockTrace.run.
  induction Hops as [|o ops Ho _ IH]; intros l Hinv; simpl; [now split|].
  destruct (IH (LockTrace.step l o) (step_invariant l o Ho Hinv)) as [I C].
  split; [exact I|]. now rewrite C, step_correctPassword.
Qed.

Lemma new_invariant (pw : string) : LockTrace.invariant (new pw).
Proof. split; cbn; [lia | discriminate]. Qed.

End LockInvariant.

(** C7 (as the code has it).  [enterDigit] appends its argument without
    looking at its length, so the bound needs every argument to be one
    character: after any history of calls on a fresh lock in which each
    entered digit is one character, the entered string is no longer than the
    code, and a further [enterDigit] made when it is as long as the code (a
    fifth digit against a four-digit code) returns the full failure and
    leaves the lock, its entered string included, as it was. *)
Theorem lock_entered_never_exceeds
  (pw : string) (ops : list LockTrace.op) (d : string) :
  Forall LockTrace.oneDigit ops ->
  let l := LockTrace.run ops (PasswordSystem.new pw) in
  (String.length (PasswordSystem.enteredPassword l) <= String.length pw)%nat
  /\ PasswordSystem.correctPassword l = pw
  /\ (String.length (PasswordSystem.enteredPassword l) = String.length pw ->
      PasswordSystem.enterDigit d l
      = (l, Outcome.plain false PasswordSystem.msgFull)).
Proof.
  intros Hops l.
  destruct (run_invariant ops (PasswordSystem.new pw) Hops
              (new_invariant pw)) as [[Hb Hl] Hc].
  fold l in Hb, Hl, Hc. cbn in Hc. rewrite Hc in Hb, Hl.
  split; [exact Hb|]. split; [exact Hc|].
  intros Hfull. unfold PasswordSystem.enterDigit.
  destruct (PasswordSystem.locked l) eqn:El.
  - exfalso. destruct (Hl eq_refl) as [He Hne]. apply Hne.
    rewrite He in Hfull. cbn in Hfull.
    apply length_zero_empty. lia.
  - rewrite Hc, Hfull, Nat.ltb_irrefl. reflexivity.
Qed.

(** Scenario E: a fifth digit against the four-digit code 9427. *)
Lemma lock_entered_never_exceeds_witness :
  let l :=
    LockTrace.run
      [LockTrace.Enter "1"; LockTrace.Enter "2"; LockTrace.Enter "3";
       LockTrace.Enter "4"]
      (PasswordSystem.new "9427") in
  PasswordSystem.enteredPassword l = "1234"
  /\ PasswordSystem.enterDigit "5" l
     = (l, Outcome.plain false PasswordSystem.msgFull).
Proof.
  intros l. split; [reflexivity|].
  apply (lock_entered_never_exceeds "9427"
           [LockTrace.Enter "1"; LockTrace.Enter "2"; LockTrace.Enter "3";
            LockTrace.Enter "4"] "5").
  - repeat constructor.
  - reflexivity.
Defined.

(** C7 as stated fails: the arguments 123 and then 45, entered on a fresh
    lock whose code is 9427, are both accepted (three and then four
    characters were not yet a full code) and leave five characters
    entered. *)
Lemma lock_entered_exceeds_code :
  let l0 := PasswordSystem.new "9427" in
  let l1 := fst (PasswordSystem.enterDigit "123" l0) in
  let l2 := fst (PasswordSystem.enterDigit "45" l1) in
  Outcome.success (snd (PasswordSystem.enterDigit "123" l0)) = true
  /\ Outcome.success (snd (PasswordSystem.enterDigit "45" l1)) = true
  /\ PasswordSystem.enteredPassword l2 = "12345"
  /\ (String.length (PasswordSystem.correctPassword l2)
      < String.length (PasswordSystem.enteredPassword l2))%nat.
Proof.
  repeat split; try reflexivity.
  vm_compute. constructor.
Qed.

(** C9.  The password display is one [*] per entered character and nothing
    else: its length is the number of entered characters, and two engines
    whose locks hold entered strings of the same length display the same
    string, whatever was entered and whatever the codes are. *)
Theorem password_display_masks (s1 s2 : ClueSystem.t) :
  String.length (PasswordSystem.enteredPassword (ClueSystem.passwordSystem s1))
  = String.length (PasswordSystem.enteredPassword (ClueSystem.passwordSystem s2)) ->
  ClueSystem.getPasswordDisplay s1 = ClueSystem.getPasswordDisplay s2
  /\ ClueSystem.getPasswordDisplay s1
     = PasswordSystem.stars
         (String.length
            (PasswordSystem.enteredPassword (ClueSystem.passwordSystem s1)))
  /\ String.length (ClueSystem.getPasswordDisplay s1)
     = String.length
         (PasswordSystem.enteredPassword (ClueSystem.passwordSystem s1)).
Proof.
  intros Hlen.
  unfold ClueSystem.getPasswordDisplay, PasswordSystem.getDisplay.
  rewrite Hlen. repeat split. apply length_stars.
Qed.

(** Two engines, one with 1-2 entered and one with 9-4: both show two
    stars. *)
Lemma password_display_masks_witness :
  let enter a b :=
    fst (ClueSystem.enterPasswordDigit b
           (fst (ClueSystem.enterPasswordDigit a ClueSystem.new))) in
  ClueSystem.getPasswordDisplay (enter "1" "2")
  = ClueSystem.getPasswordDisplay (enter "9" "4")
  /\ ClueSystem.getPasswordDisplay (enter "1" "2") = "**".
Proof.
  intros enter.
  destruct (password_display_masks (enter "1" "2") (enter "9" "4") eq_refl)
    as (Hsame & Hstars & _).
  split; [exact Hsame | exact Hstars].
Defined.

(* ==================== Properties: the inventory ==================== *)
Section JsMapFacts.
Context {V : Type}.
Implicit Types (m : JsMap.t V) (k : string) (v : V).

Lemma get_set_eq k v m : JsMap.get k (JsMap.set k v m) = Some v.
Proof.
  induction m as [|[k' v'] m IH]; simpl.
  - now rewrite String.eqb_refl.
  - destruct (String.eqb k' k) eqn:E; simpl.
    + now rewrite String.eqb_refl.
    + now rewrite E.
Qed.

Lemma get_set_ne k k' v m :
  k <> k' -> JsMap.get k' (JsMap.set k v m) = JsMap.get k' m.
Proof.
  intros Hne. induction m as [|[k0 v0] m IH]; simpl.
  - destruct (String.eqb_spec k k'); [contradiction | reflexivity].
  - destruct (String.eqb_spec k0 k) as [->|N]; simpl.
    + destruct (String.eqb_spec k k'); [contradiction | reflexivity].
    + destruct (String.eqb k0 k'); [reflexivity | exact IH].
Qed.

Lemma length_set_present k v v0 m :
  JsMap.get k m = Some v0 ->
  List.length (JsMap.set k v m) = List.length m.
Proof.
  induction m as [|[k' v'] m IH]; simpl; [discriminate|].
  destruct (String.eqb k' k); simpl; [reflexivity|].
  intros H. now rewrite IH.
Qed.

Lemma get_delete_eq k m : JsMap.get k (JsMap.delete k m) = None.
Proof.
  induction m as [|[k' v'] m IH]; simpl; [reflexivity|].
  destruct (String.eqb k' k) eqn:E; simpl; [exact IH | now rewrite E].
Qed.

Lemma get_delete_ne k k' m :
  k <> k' -> JsMap.get k' (JsMap.delete k m) = JsMap.get k' m.
Proof.
  intros Hne. induction m as [|[k0 v0] m IH]; simpl; [reflexivity|].
  destruct (String.eqb_spec k0 k) as [->|N]; simpl.
  - destruct (String.eqb_spec k k'); [contradiction | exact IH].
  - destruct (String.eqb k0 k'); [reflexivity | exact IH].
Qed.

End JsMapFacts.

(** C10.  With a free slot and an item already stored under the identifier,
    [addItem] refuses (and changes nothing) exactly when the stored item is
    collectable and not consumable; when the stored item is consumable the
    new item takes its place in the map, [addItem] returns true and the item
    count is what it was. *)
Theorem addItem_duplicate (inv : Inventory.t) (item existing : Item.t) :
  Inventory.getItemCount inv < Inventory.maxSlots inv ->
  Inventory.getItem (Item.id item) inv = Some existing ->
  let inv' := fst (Inventory.addItem item inv) in
  let added := snd (Inventory.addItem item inv) in
  (added = false <->
     Item.canCollect existing = true /\ Item.consumable existing = false)
  /\ (added = false -> inv' = inv)
  /\ (Item.consumable existing = true ->
        added = true
        /\ Inventory.items inv'
           = JsMap.set (Item.id item) item (Inventory.items inv)
        /\ Inventory.getItem (Item.id item) inv' = Some item
        /\ Inventory.getItemCount inv' = Inventory.getItemCount inv
        /\ Inventory.maxSlots inv' = Inventory.maxSlots inv).
Proof.
  unfold Inventory.getItemCount, Inventory.getItem, Inventory.addItem.
  intros Hfree Hget.
  destruct (Z.leb_spec (Inventory.maxSlots inv)
                       (JsMap.size (Inventory.items inv))) as [Hfull|_];
    [lia|].
  rewrite Hget.
  destruct (Item.canCollect existing) eqn:Ec,
           (Item.consumable existing) eqn:Ek; cbn;
    repeat split; try tauto; try discriminate; try congruence;
    try apply get_set_eq;
    try (intros _; unfold JsMap.size; f_equal;
         now apply length_set_present with existing);
    try (unfold JsMap.size; f_equal;
         now apply length_set_present with existing).
  all: intros [H1 H2]; discriminate.
Qed.

(** A second small key (a consumable item) added to an inventory that holds
    one. *)
Lemma addItem_duplicate_witness :
  let key := Item.set_consumable true
               (Item.new "small_key" "🔑 小钥匙" "一把银色的小钥匙，可以打开抽屉" "🔑" true) in
  let used := Item.set_usesLeft 0 key in
  let inv := fst (Inventory.addItem used Inventory.new) in
  snd (Inventory.addItem key inv) = true
  /\ Inventory.getItem "small_key" (fst (Inventory.addItem key inv)) = Some key
  /\ Inventory.getItemCount (fst (Inventory.addItem key inv)) = 1.
Proof.
  intros key used inv.
  destruct (addItem_duplicate inv key used) as (_ & _ & H).
  - reflexivity.
  - reflexivity.
  - destruct (H eq_refl) as (Ha & _ & Hg & Hc & _).
    split; [exact Ha|]. split; [exact Hg|]. exact Hc.
Defined.

(* ==================== Properties: the engine ==================== *)
Section EngineFacts.
Import ClueSystem.

(** When every action succeeds, [executeActions] runs them all and answers
    with its own record. *)
Lemma executeActions_allSucceed (actions : list InteractionAction.t) (s : t) :
  EngineTrace.allSucceed actions s = true ->
  executeActions actions s
  = (EngineTrace.stateAfter actions s, Outcome.plain true msgDone).
Proof.
  revert s. induction actions as [|a rest IH]; intros s; simpl;
    [reflexivity|].
  destruct (executeAction a s) as [s1 r1]; simpl.
  destruct (Outcome.success r1); simpl; [apply IH | discriminate].
Qed.

(** [executeActions] reports success only when every action did. *)
Lemma executeActions_success (actions : list InteractionAction.t) (s : t) :
  Outcome.success (snd (executeActions actions s)) = true ->
  EngineTrace.allSucceed actions s = true.
Proof.
  revert s. induction actions as [|a rest IH]; intros s; simpl;
    [reflexivity|].
  destruct (executeAction a s) as [s1 r1]; simpl.
  destruct (Outcome.success r1) eqn:E; simpl; [apply IH|].
  simpl. now rewrite E.
Qed.

(** Actions touch the inventory and the state store only. *)
Lemma executeAction_frame (a : InteractionAction.t) (s : t) :
  let s' := fst (executeAction a s) in
  sceneObjects s' = sceneObjects s /\ items s' = items s
  /\ passwordSystem s' = passwordSystem s
  /\ interactions s' = interactions s.
Proof.
  destruct a; simpl; try (now repeat split).
  - destruct (items s !! payload); simpl; [|now repeat split].
    destruct (Inventory.hasItem _ _); simpl; [now repeat split|].
    destruct (Inventory.addItem _ _) as [i b]; destruct b; now repeat split.
  - destruct (Inventory.hasItem _ _); now repeat split.
  - destruct (Inventory.removeItem _ _) as [i b]; destruct b; now repeat split.
Qed.

Lemma stateAfter_frame (actions : list InteractionAction.t) (s : t) :
  let s' := EngineTrace.stateAfter actions s in
  sceneObjects s' = sceneObjects s /\ items s' = items s
  /\ passwordSystem s' = passwordSystem s
  /\ interactions s' = interactions s.
Proof.
  revert s. induction actions as [|a rest IH]; intros s; simpl;
    [now repeat split|].
  destruct (IH (fst (executeAction a s))) as (A & B & C & D).
  destruct (executeAction_frame a s) as (A' & B' & C' & D').
  simpl in *. repeat split; congruence.
Qed.

End EngineFacts.

(** C1 (as the code has it).  When the object exists, the conditions of its
    first interaction hold and every action of that interaction succeeds,
    [interact] returns an outcome with [success = true], leaves the inventory
    and the state store as the actions left them, and marks that first
    interaction as executed. *)
Theorem interact_marks_executed
  (s : ClueSystem.t) (objectId : string) (object : SceneObject.t)
  (interaction : Interaction.t) (others : list Interaction.t) :
  ClueSystem.sceneObjects s !! objectId = Some object ->
  SceneObject.interactions object = interaction :: others ->
  Interaction.canExecute interaction (ClueSystem.inventory s)
    (ClueSystem.gameState s) = true ->
  EngineTrace.allSucceed (Interaction.actions interaction) s = true ->
  let s' := fst (ClueSystem.interact objectId s) in
  let done := EngineTrace.stateAfter (Interaction.actions interaction) s in
  Outcome.success (snd (ClueSystem.interact objectId s)) = true
  /\ ClueSystem.sceneObjects s' !! objectId
     = Some (SceneObject.set_interactions
               (Interaction.set_executed true interaction :: others) object)
  /\ Interaction.executed (Interaction.set_executed true interaction) = true
  /\ ClueSystem.inventory s' = ClueSystem.inventory done
  /\ ClueSystem.gameState s' = ClueSystem.gameState done.
Proof.
  intros Hobj Hint Hcan Hall s' done. subst s'.
  unfold ClueSystem.interact. rewrite Hobj, Hint, Hcan. simpl.
  rewrite (executeActions_allSucceed _ _ Hall). fold done. simpl.
  repeat split. now rewrite lookup_insert_eq.
Qed.

(** The plant of a fresh run. *)
Lemma interact_marks_executed_witness :
  let s' := fst (ClueSystem.interact "plant" ClueSystem.new) in
  Outcome.success (snd (ClueSystem.interact "plant" ClueSystem.new)) = true
  /\ (SceneObject.interactions <$> ClueSystem.sceneObjects s' !! "plant")
     = Some [Interaction.set_executed true ClueSystem.plantInteraction]
  /\ ClueSystem.hasItem "small_key" s' = true.
Proof.
  intros s'.
  destruct (interact_marks_executed ClueSystem.new "plant"
              (SceneObject.addInteraction ClueSystem.plantInteraction
                 (SceneObject.new "plant" "🪴 盆栽" "一盆枯萎的绿植"
                    (SceneObject.mkPosition 2.5 0 1.5)))
              ClueSystem.plantInteraction [])
    as (Hs & Ho & _ & Hi & _).
  - vm_compute. reflexivity.
  - reflexivity.
  - reflexivity.
  - reflexivity.
  - fold s' in Ho, Hi. split; [exact Hs|]. split.
    + rewrite Ho. reflexivity.
    + unfold ClueSystem.hasItem. rewrite Hi. reflexivity.
Defined.

(** C1 as stated fails: in a fresh run the plant's condition holds and both
    its actions succeed, yet [interact] answers with the record of
    [executeActions], not with the outcome of the last action (the message
    about the key). *)
Lemma interact_plant_not_last_outcome :
  let s := ClueSystem.new in
  let actions := Interaction.actions ClueSystem.plantInteraction in
  Interaction.canExecute ClueSystem.plantInteraction (ClueSystem.inventory s)
    (ClueSystem.gameState s) = true
  /\ EngineTrace.allSucceed actions s = true
  /\ snd (ClueSystem.interact "plant" s)
     = Outcome.plain true ClueSystem.msgDone
  /\ Outcome.type (snd (Specified.executeActions actions s))
     = Some "show_message"
  /\ Outcome.title (snd (Specified.executeActions actions s))
     = Some "🔑 发现钥匙"
  /\ snd (ClueSystem.interact "plant" s)
     <> snd (Specified.executeActions actions s).
Proof.
  vm_compute. repeat split; discriminate.
Qed.

(** C2 (as the code has it).  A submission that matches the code, on a lock
    that is not locked, reports success, resets the lock and sets the flag
    [safeOpened] and the state [safePasswordKnown]; it does not run the
    success actions nested in any [check_password] action: the inventory, the
    scene objects and the templates are what they were, so an item is held
    afterwards exactly when it was held before. *)
Theorem submitPassword_success (s : ClueSystem.t) (itemId : string) :
  PasswordSystem.locked (ClueSystem.passwordSystem s) = false ->
  PasswordSystem.enteredPassword (ClueSystem.passwordSystem s)
  = PasswordSystem.correctPassword (ClueSystem.passwordSystem s) ->
  let s' := fst (ClueSystem.submitPassword s) in
  snd (ClueSystem.submitPassword s)
  = Outcome.plain true PasswordSystem.msgCorrect
  /\ ClueSystem.passwordSystem s'
     = PasswordSystem.reset (ClueSystem.passwordSystem s)
  /\ ClueSystem.gameState s'
     = GameState.set "safePasswordKnown" true
         (GameState.setFlag "safeOpened" true (ClueSystem.gameState s))
  /\ GameState.hasFlag "safeOpened" (ClueSystem.gameState s') = true
  /\ GameState.get "safePasswordKnown" (ClueSystem.gameState s') = true
  /\ ClueSystem.inventory s' = ClueSystem.inventory s
  /\ ClueSystem.sceneObjects s' = ClueSystem.sceneObjects s
  /\ ClueSystem.items s' = ClueSystem.items s
  /\ ClueSystem.hasItem itemId s' = ClueSystem.hasItem itemId s.
Proof.
  intros Hl He s'. subst s'.
  unfold ClueSystem.submitPassword, PasswordSystem.submitPassword.
  rewrite Hl, He, String.eqb_refl. cbn.
  repeat split.
  - unfold GameState.hasFlag, GameState.setFlag. cbn.
    now rewrite lookup_insert_eq.
  - unfold GameState.get, GameState.set. cbn.
    now rewrite lookup_insert_eq.
Qed.

(** 9-4-2-7 entered and submitted in a fresh run. *)
Lemma submitPassword_success_witness :
  let enter d s := fst (ClueSystem.enterPasswordDigit d s) in
  let s := enter "7" (enter "2" (enter "4" (enter "9" ClueSystem.new))) in
  Outcome.success (snd (ClueSystem.submitPassword s)) = true
  /\ ClueSystem.getInventory (fst (ClueSystem.submitPassword s)) = []
  /\ GameState.hasFlag "safeOpened"
       (ClueSystem.gameState (fst (ClueSystem.submitPassword s))) = true.
Proof.
  intros enter s.
  destruct (submitPassword_success s "golden_key" eq_refl eq_refl)
    as (Hr & _ & _ & Hf & _ & Hi & _).
  split; [now rewrite Hr|]. split; [|exact Hf].
  unfold ClueSystem.getInventory. now rewrite Hi.
Defined.

(** C2 as stated fails: in a fresh run, after [interact] on the safe and with
    the code 9-4-2-7 entered, [submitPassword] succeeds and the golden key is
    not held afterwards; it is held once the caller has run the nested
    success actions. *)
Lemma submitPassword_does_not_grant :
  let enter d s := fst (ClueSystem.enterPasswordDigit d s) in
  let s0 := fst (ClueSystem.interact "safe" ClueSystem.new) in
  let s := enter "7" (enter "2" (enter "4" (enter "9" s0))) in
  let s' := fst (ClueSystem.submitPassword s) in
  Outcome.success (snd (ClueSystem.interact "safe" ClueSystem.new)) = true
  /\ PasswordSystem.enteredPassword (ClueSystem.passwordSystem s)
     = PasswordSystem.correctPassword (ClueSystem.passwordSystem s)
  /\ Outcome.success (snd (ClueSystem.submitPassword s)) = true
  /\ ClueSystem.hasItem "golden_key" s' = false
  /\ ClueSystem.hasItem "golden_key"
       (fst (ClueSystem.executeActions ClueSystem.safeSuccessActions s'))
     = true.
Proof.
  vm_compute. repeat split.
Qed.

(** C3 on the code.  In a fresh run to which a copy of the small key has
    been added, [interact] on the desk drawer consumes the key and grants the
    diary, but the outcome it returns is the record of [executeActions]: it
    has no [type] and no [item], so the repository's own test of this
    scenario does not pass. *)
Theorem drawer_with_key :
  let key := Item.clone
               (Item.set_consumable true
                  (Item.new "small_key" "🔑 小钥匙" "一把银色的小钥匙，可以打开抽屉" "🔑" true)) in
  let s :=
    ClueSystem.set_inventory
      (fst (Inventory.addItem key (ClueSystem.inventory ClueSystem.new)))
      ClueSystem.new in
  let s' := fst (ClueSystem.interact "desk_drawer" s) in
  let result := snd (ClueSystem.interact "desk_drawer" s) in
  ClueSystem.items ClueSystem.new !! "small_key"
  = Some (Item.set_consumable true
            (Item.new "small_key" "🔑 小钥匙" "一把银色的小钥匙，可以打开抽屉" "🔑" true))
  /\ ClueSystem.hasItem "small_key" s = true
  /\ result = Outcome.plain true ClueSystem.msgDone
  /\ Outcome.type result = None
  /\ Outcome.item result = None
  /\ ClueSystem.hasItem "small_key" s' = false
  /\ ClueSystem.hasItem "diary" s' = true
  /\ ClueSystem.getInventory s'
     = [Item.new "diary" "📔 日记本" "日记最后一页：记住，密码锁的顺序是反的" "📔" true]
  /\ ClueSystemTests.testWithKeySuccess = Some false
  /\ ClueSystemTests.testCorrectPasswordOpenDoor = false.
Proof.
  vm_compute. repeat split.
Qed.

(** C5.  In a fresh run whose inventory has been cleared, [interact] on the
    desk drawer fails with type [requirement_missing] and the message of the
    drawer's [require_item] action, and the engine, its inventory included,
    is left as it was. *)
Theorem drawer_without_key :
  let s :=
    ClueSystem.set_inventory
      (Inventory.clear (ClueSystem.inventory ClueSystem.new)) ClueSystem.new in
  let s' := fst (ClueSystem.interact "desk_drawer" s) in
  let result := snd (ClueSystem.interact "desk_drawer" s) in
  Outcome.success result = false
  /\ Outcome.type result = Some "requirement_missing"
  /\ Outcome.message result = Some "❌ 需要小钥匙"
  /\ ClueSystem.inventory s' = ClueSystem.inventory s
  /\ ClueSystem.getInventory s' = []
  /\ s' = s
  /\ ClueSystemTests.testNoKeyShowMessage = true.
Proof.
  vm_compute. repeat split.
Qed.

(** C8.  For an identifier that names no scene object, [interact] returns
    the failure record for a missing object and the engine (inventory, state
    store, lock and all) is left as it was. *)
Theorem interact_unknown_object (s : ClueSystem.t) (objectId : string) :
  ClueSystem.sceneObjects s !! objectId = None ->
  ClueSystem.interact objectId s
  = (s, Outcome.plain false ClueSystem.msgNoObject)
  /\ Outcome.success (snd (ClueSystem.interact objectId s)) = false
  /\ ClueSystem.inventory (fst (ClueSystem.interact objectId s))
     = ClueSystem.inventory s
  /\ ClueSystem.gameState (fst (ClueSystem.interact objectId s))
     = ClueSystem.gameState s
  /\ ClueSystem.passwordSystem (fst (ClueSystem.interact objectId s))
     = ClueSystem.passwordSystem s.
Proof.
  intros Hnone. unfold ClueSystem.interact. rewrite Hnone. now repeat split.
Qed.

(** No scene object is called window. *)
Lemma interact_unknown_object_witness :
  ClueSystem.interact "window" ClueSystem.new
  = (ClueSystem.new, Outcome.plain false ClueSystem.msgNoObject).
Proof.
  apply (interact_unknown_object ClueSystem.new "window").
  vm_compute. reflexivity.
Defined.

(** C6.  Granting an item whose identifier is held (the identifier being
    that of a template, stored under it) succeeds with type [item_owned] and
    leaves the engine as it was: the inventory has the same entries, in the
    same order, and the same count.  Nothing is asked of the free slots, so
    this holds for a full inventory too. *)
Theorem give_item_already_owned
  (s : ClueSystem.t) (itemId : string) (item : Item.t) :
  ClueSystem.items s !! itemId = Some item ->
  Item.id item = itemId ->
  ClueSystem.hasItem itemId s = true ->
  let s' := fst (ClueSystem.executeAction (InteractionAction.give_item itemId) s) in
  let result :=
    snd (ClueSystem.executeAction (InteractionAction.give_item itemId) s) in
  result = ClueSystem.itemOutcome "item_owned" item
  /\ Outcome.success result = true
  /\ s' = s
  /\ Inventory.items (ClueSystem.inventory s')
     = Inventory.items (ClueSystem.inventory s)
  /\ Inventory.getItemCount (ClueSystem.inventory s')
     = Inventory.getItemCount (ClueSystem.inventory s).
Proof.
  intros Hitem Hid Hheld. unfold ClueSystem.hasItem in Hheld. cbn.
  rewrite Hitem, Hid, Hheld. now repeat split.
Qed.

(** An inventory of one slot that holds the small key: full, and the grant
    of the small key still answers [item_owned]. *)
Lemma give_item_already_owned_witness :
  let key := Item.set_consumable true
               (Item.new "small_key" "🔑 小钥匙" "一把银色的小钥匙，可以打开抽屉" "🔑" true) in
  let s :=
    ClueSystem.set_inventory (Inventory.mk [("small_key", Item.clone key)] 1)
      ClueSystem.new in
  Inventory.getItemCount (ClueSystem.inventory s)
  = Inventory.maxSlots (ClueSystem.inventory s)
  /\ ClueSystem.executeAction (InteractionAction.give_item "small_key") s
     = (s, ClueSystem.itemOutcome "item_owned" key).
Proof.
  intros key s. split; [reflexivity|].
  destruct (give_item_already_owned s "small_key" key) as (Hr & _ & Hs & _).
  - vm_compute. reflexivity.
  - reflexivity.
  - reflexivity.
  - apply injective_projections; [exact Hs | exact Hr].
Defined.


(* ==================== Held items come from the templates ==================== *)
Section HeldItems.
Import ClueSystem.

Lemma has_set {V : Type} (k k' : string) (v : V) (m : JsMap.t V) :
  JsMap.has k' (JsMap.set k v m) = true -> k' = k \/ JsMap.has k' m = true.
Proof.
  unfold JsMap.has. destruct (String.eqb_spec k k') as [->|Hne]; [now left|].
  rewrite get_set_ne by exact Hne. now right.
Qed.

Lemma has_delete {V : Type} (k k' : string) (m : JsMap.t V) :
  JsMap.has k' (JsMap.delete k m) = true -> JsMap.has k' m = true.
Proof.
  unfold JsMap.has. destruct (String.eqb_spec k k') as [->|Hne].
  - now rewrite get_delete_eq.
  - now rewrite get_delete_ne.
Qed.

Lemma clone_id (item : Item.t) : Item.id (Item.clone item) = Item.id item.
Proof. reflexivity. Qed.

Lemma executeAction_held (a : InteractionAction.t) (s : t) :
  EngineTrace.catalogKeyed s -> EngineTrace.heldFromCatalog s ->
  EngineTrace.heldFromCatalog (fst (executeAction a s)).
Proof.
  intros Hkeyed Hheld.
  destruct a; simpl; try exact Hheld.
  - destruct (items s !! payload) as [item|] eqn:Hitem; [|exact Hheld].
    destruct (Inventory.hasItem _ _); [exact Hheld|].
    unfold Inventory.addItem.
    destruct (_ <=? _)%Z; [exact Hheld|].
    destruct (match JsMap.get _ _ with Some _ => _ | None => _ end);
      [exact Hheld|].
    intros k Hk. unfold hasItem, Inventory.hasItem in Hk. cbn in Hk.
    apply has_set in Hk as [->|Hk].
    + rewrite (Hkeyed _ _ Hitem). eauto.
    + now apply Hheld.
  - destruct (Inventory.hasItem _ _); exact Hheld.
  - unfold Inventory.removeItem.
    destruct (JsMap.has payload _); [|exact Hheld].
    intros k Hk. unfold hasItem, Inventory.hasItem in Hk. cbn in Hk.
    apply has_delete in Hk. now apply Hheld.
Qed.

Lemma stateAfter_executeActions (actions : list InteractionAction.t) (s : t) :
  exists done,
    fst (executeActions actions s) = EngineTrace.stateAfter done s.
Proof.
  revert s. induction actions as [|a rest IH]; intros s; simpl.
  - now exists [].
  - destruct (executeAction a s) as [s1 r1] eqn:E.
    destruct (Outcome.success r1); simpl.
    + destruct (IH s1) as [done Hd]. exists (a :: done). simpl.
      now rewrite E.
    + exists [a]. simpl. now rewrite E.
Qed.

Lemma stateAfter_held (actions : list InteractionAction.t) (s : t) :
  EngineTrace.catalogKeyed s -> EngineTrace.heldFromCatalog s ->
  EngineTrace.heldFromCatalog (EngineTrace.stateAfter actions s).
Proof.
  revert s. induction actions as [|a rest IH]; intros s Hk Hh; simpl;
    [exact Hh|].
  apply IH.
  - unfold EngineTrace.catalogKeyed.
    destruct (executeAction_frame a s) as (_ & -> & _). exact Hk.
  - now apply executeAction_held.
Qed.

Lemma step_held (o : EngineTrace.op) (s : t) :
  EngineTrace.catalogKeyed s -> EngineTrace.heldFromCatalog s ->
  EngineTrace.catalogKeyed (EngineTrace.step s o)
  /\ EngineTrace.heldFromCatalog (EngineTrace.step s o).
Proof.
  intros Hk Hh. destruct o as [objectId|digit|]; simpl.
  - unfold interact.
    destruct (sceneObjects s !! objectId) as [object|]; [|now split].
    destruct (SceneObject.interactions object) as [|i others]; [now split|].
    destruct (negb _); [now split|].
    destruct (stateAfter_executeActions (Interaction.actions i) s)
      as [done Hd].
    destruct (executeActions (Interaction.actions i) s) as [s1 r1].
    simpl in Hd. subst s1.
    pose proof (stateAfter_held done s Hk Hh) as Hh'.
    destruct (stateAfter_frame done s) as (_ & Hi & _).
    assert (Hk' : EngineTrace.catalogKeyed (EngineTrace.stateAfter done s))
      by (unfold EngineTrace.catalogKeyed; now rewrite Hi).
    destruct (Outcome.success r1); now split.
  - unfold enterPasswordDigit.
    destruct (PasswordSystem.enterDigit _ _); now split.
  - unfold submitPassword.
    destruct (PasswordSystem.submitPassword _) as [p r].
    destruct (Outcome.success r); now split.
Qed.

Lemma new_catalogKeyed : EngineTrace.catalogKeyed new.
Proof.
  assert (H : map_Forall (fun key item => Item.id item = key) (items new)).
  { apply map_Forall_to_list. vm_compute. repeat constructor. }
  intros key item Hitem. exact (H key item Hitem).
Qed.

Lemma run_held (ops : list EngineTrace.op) (s : t) :
  EngineTrace.catalogKeyed s -> EngineTrace.heldFromCatalog s ->
  EngineTrace.catalogKeyed (EngineTrace.run ops s)
  /\ EngineTrace.heldFromCatalog (EngineTrace.run ops s).
Proof.
  revert s. unfold EngineTrace.run.
  induction ops as [|o ops IH]; intros s Hk Hh; simpl; [now split|].
  destruct (step_held o s Hk Hh) as [Hk' Hh']. now apply IH.
Qed.

(** After any sequence of calls on a fresh engine, the grant of a held
    identifier finds its template and answers [item_owned]. *)
Lemma give_item_held_reachable (ops : list EngineTrace.op) (itemId : string) :
  let s := EngineTrace.run ops new in
  hasItem itemId s = true ->
  exists item,
    executeAction (InteractionAction.give_item itemId) s
    = (s, itemOutcome "item_owned" item).
Proof.
  intros s Hheld.
  destruct (run_held ops new new_catalogKeyed) as [Hk Hh];
    [intros k Hk; discriminate|].
  fold s in Hk, Hh.
  destruct (Hh itemId Hheld) as [item Hitem].
  exists item. simpl. rewrite Hitem, (Hk _ _ Hitem).
  unfold hasItem in Hheld. now rewrite Hheld.
Qed.

End HeldItems.

(* ==================== Properties: the log sink ==================== *)
Section LoggerFacts.
Import DebugLogger.

Lemma log_frame (ts lv msg : string) (d : option string) (l : t) :
  maxLogs (log ts lv msg d l) = maxLogs l
  /\ enabled (log ts lv msg d l) = enabled l.
Proof.
  unfold log. destruct (enabled l) eqn:E; cbn; [|now rewrite E].
  destruct (_ <? _)%Z; cbn; now rewrite E.
Qed.

Lemma log_length (ts lv msg : string) (d : option string) (l : t) :
  (Z.of_nat (List.length (logs l)) <= maxLogs l)%Z ->
  (Z.of_nat (List.length (logs (log ts lv msg d l))) <= maxLogs l)%Z.
Proof.
  intros Hb. unfold log. destruct (enabled l); cbn; [|exact Hb].
  destruct (Z.ltb_spec (maxLogs l)
              (Z.of_nat (List.length (logs l ++ [mkEntry ts lv msg d]))))
    as [Hlt|Hge]; cbn; [|exact Hge].
  unfold shift. rewrite length_app in Hlt. cbn in Hlt.
  destruct (logs l) as [|x xs]; cbn in *; [lia|].
  rewrite length_app. cbn. lia.
Qed.

Lemma logAll_frame (entries : list LogEntry) (l : t) :
  maxLogs (logAll entries l) = maxLogs l
  /\ enabled (logAll entries l) = enabled l.
Proof.
  revert l. unfold logAll.
  induction entries as [|e es IH]; intros l; simpl; [now split|].
  destruct (IH (log (timestamp e) (level e) (message e) (data e) l)) as [A B].
  destruct (log_frame (timestamp e) (level e) (message e) (data e) l) as [A' B'].
  split; congruence.
Qed.

End LoggerFacts.

(** X1.  The log never holds more than [maxLogs] entries: a logger within
    its bound stays within it after any sequence of [log] calls, enabled or
    not. *)
Theorem logger_bounded (entries : list DebugLogger.LogEntry) (l : DebugLogger.t) :
  (Z.of_nat (List.length (DebugLogger.logs l)) <= DebugLogger.maxLogs l)%Z ->
  (Z.of_nat (List.length (DebugLogger.logs (DebugLogger.logAll entries l)))
   <= DebugLogger.maxLogs l)%Z.
Proof.
  revert l. unfold DebugLogger.logAll.
  induction entries as [|e es IH]; intros l Hb; simpl; [exact Hb|].
  destruct (log_frame (DebugLogger.timestamp e) (DebugLogger.level e)
              (DebugLogger.message e) (DebugLogger.data e) l) as [Hm _].
  rewrite <- Hm. apply IH. rewrite Hm. now apply log_length.
Qed.

(** Three entries logged to a logger of two slots. *)
Lemma logger_bounded_witness :
  let e n := DebugLogger.mkEntry n "INFO" "m" None in
  let l := DebugLogger.mk [] 2 true "INFO" in
  (Z.of_nat (List.length
               (DebugLogger.logs (DebugLogger.logAll [e "1"; e "2"; e "3"] l)))
   <= 2)%Z.
Proof.
  intros e l.
  apply (logger_bounded [e "1"; e "2"; e "3"] l). cbn. lia.
Defined.

Lemma skipn_last_app {A : Type} (m : nat) (xs ys : list A) :
  List.skipn (List.length (List.skipn (List.length xs - m) xs ++ ys)%list - m)
             (List.skipn (List.length xs - m) xs ++ ys)%list
  = List.skipn (List.length (xs ++ ys)%list - m) (xs ++ ys)%list.
Proof.
  rewrite !List.length_app, List.length_skipn.
  destruct (Nat.le_gt_cases (List.length xs) m) as [Hle|Hgt].
  - replace (List.length xs - m)%nat with 0%nat by lia. cbn.
    now rewrite Nat.sub_0_r.
  - replace (List.length xs - (List.length xs - m) + List.length ys - m)%nat
      with (List.length ys) by lia.
    replace (List.length xs + List.length ys - m)%nat
      with (List.length ys + (List.length xs - m))%nat by lia.
    rewrite <- List.skipn_skipn. f_equal.
    rewrite List.skipn_app.
    replace (List.length xs - m - List.length xs)%nat with 0%nat by lia.
    reflexivity.
Qed.

Lemma log_logs (ts lv msg : string) (d : option string) (l : DebugLogger.t) :
  DebugLogger.enabled l = true ->
  (Z.of_nat (List.length (DebugLogger.logs l)) <= DebugLogger.maxLogs l)%Z ->
  DebugLogger.logs (DebugLogger.log ts lv msg d l)
  = List.skipn
      (List.length (DebugLogger.logs l ++ [DebugLogger.mkEntry ts lv msg d])%list
       - Z.to_nat (DebugLogger.maxLogs l))
      (DebugLogger.logs l ++ [DebugLogger.mkEntry ts lv msg d])%list.
Proof.
  intros Hen Hb. unfold DebugLogger.log. rewrite Hen. cbn.
  rewrite List.length_app. cbn.
  destruct (_ <? _)%Z eqn:E; cbn.
  - apply Z.ltb_lt in E.
    replace (List.length (DebugLogger.logs l) + 1
             - Z.to_nat (DebugLogger.maxLogs l))%nat with 1%nat by lia.
    reflexivity.
  - apply Z.ltb_ge in E.
    replace (List.length (DebugLogger.logs l) + 1
             - Z.to_nat (DebugLogger.maxLogs l))%nat with 0%nat by lia.
    reflexivity.
Qed.

Lemma logAll_logs (entries : list DebugLogger.LogEntry) (l : DebugLogger.t) :
  DebugLogger.enabled l = true ->
  (Z.of_nat (List.length (DebugLogger.logs l)) <= DebugLogger.maxLogs l)%Z ->
  DebugLogger.logs (DebugLogger.logAll entries l)
  = List.skipn
      (List.length (DebugLogger.logs l ++ entries)%list
       - Z.to_nat (DebugLogger.maxLogs l))
      (DebugLogger.logs l ++ entries)%list.
Proof.
  revert l. unfold DebugLogger.logAll.
  induction entries as [|e es IH]; intros l Hen Hb; simpl.
  - rewrite List.app_nil_r.
    replace (_ - _)%nat with 0%nat by lia. reflexivity.
  - destruct e as [ts lv msg d]. cbn [DebugLogger.timestamp DebugLogger.level
                                      DebugLogger.message DebugLogger.data].
    destruct (log_frame ts lv msg d l) as [Hm He].
    rewrite IH.
    + rewrite Hm, log_logs by assumption.
      rewrite skipn_last_app. now rewrite <- List.app_assoc.
    + congruence.
    + rewrite Hm. now apply log_length.
Qed.

(** X2.  Eviction is oldest first: an enabled logger that starts empty
    holds, after any sequence of [log] calls, the last [maxLogs] logged
    entries, in the order they were logged. *)
Theorem logger_keeps_newest (entries : list DebugLogger.LogEntry) (l : DebugLogger.t) :
  DebugLogger.enabled l = true ->
  DebugLogger.logs l = [] ->
  (0 <= DebugLogger.maxLogs l)%Z ->
  DebugLogger.getLogs (DebugLogger.logAll entries l)
  = List.skipn (List.length entries - Z.to_nat (DebugLogger.maxLogs l)) entries.
Proof.
  intros Hen Hempty Hmax. unfold DebugLogger.getLogs.
  rewrite logAll_logs; rewrite ?Hempty; cbn; [reflexivity | assumption | lia].
Qed.

(** Three entries logged to an empty logger of two slots: the first is
    gone. *)
Lemma logger_keeps_newest_witness :
  let e n := DebugLogger.mkEntry n "INFO" "m" None in
  DebugLogger.getLogs
    (DebugLogger.logAll [e "1"; e "2"; e "3"] (DebugLogger.mk [] 2 true "INFO"))
  = [e "2"; e "3"].
Proof.
  intros e.
  apply (logger_keeps_newest [e "1"; e "2"; e "3"]
           (DebugLogger.mk [] 2 true "INFO")).
  - reflexivity.
  - reflexivity.
  - cbn. lia.
Defined.

(* ==================== Properties: items ==================== *)

Lemma use_iter (item : Item.t) (n k : nat) :
  Item.consumable item = true ->
  Item.usesLeft item = Z.of_nat n ->
  (k <= n)%nat ->
  let used := Nat.iter k (fun i => fst (Item.use i)) item in
  Item.consumable used = true
  /\ Item.usesLeft used = (Z.of_nat n - Z.of_nat k)%Z.
Proof.
  intros Hc Hu. induction k as [|k IH]; intros Hk used; subst used.
  - cbn. split; [exact Hc | lia].
  - destruct IH as [Hc' Hu']; [lia|].
    rewrite Nat.iter_succ.
    set (u := Nat.iter k (fun i => fst (Item.use i)) item) in *.
    unfold Item.use. rewrite Hc', Hu'. cbn.
    destruct (Z.ltb_spec 0 (Z.of_nat n - Z.of_nat k)) as [_|Hle]; [|lia].
    cbn. split; [exact Hc' | lia].
Qed.

(** X3.  A consumable item with [n] uses left, [n] at most 2^53 (the
    range in which the code's number holds every integer exactly, so that
    [usesLeft--] takes exactly one away), can be used exactly [n] times: each
    of the first [n] calls of [use] returns true, they bring [usesLeft] to 0,
    and from then on [use] returns false and changes nothing. *)
Theorem item_use_count (item : Item.t) (n : nat) :
  Item.consumable item = true ->
  Item.usesLeft item = Z.of_nat n ->
  (Z.of_nat n <= 2 ^ 53)%Z ->
  let after k := Nat.iter k (fun i => fst (Item.use i)) item in
  (forall k, (k < n)%nat -> snd (Item.use (after k)) = true)
  /\ Item.usesLeft (after n) = 0%Z
  /\ Item.use (after n) = (after n, false).
Proof.
  intros Hc Hu _ after. repeat split.
  - intros k Hk.
    destruct (use_iter item n k Hc Hu) as [Hc' Hu']; [lia|].
    unfold Item.use. fold (after k) in Hc', Hu'. rewrite Hc', Hu'. cbn.
    destruct (Z.ltb_spec 0 (Z.of_nat n - Z.of_nat k)); [reflexivity | lia].
  - destruct (use_iter item n n Hc Hu) as [_ Hu']; [lia|].
    fold (after n) in Hu'. lia.
  - destruct (use_iter item n n Hc Hu) as [Hc' Hu']; [lia|].
    fold (after n) in Hc', Hu'.
    unfold Item.use. rewrite Hc', Hu', Z.sub_diag. reflexivity.
Qed.

(** The small key has one use. *)
Lemma item_use_count_witness :
  let key := Item.set_consumable true
               (Item.new "small_key" "🔑 小钥匙" "一把银色的小钥匙，可以打开抽屉" "🔑" true) in
  snd (Item.use key) = true
  /\ Item.use (fst (Item.use key)) = (fst (Item.use key), false).
Proof.
  intros key.
  destruct (item_use_count key 1 eq_refl eq_refl) as (H1 & _ & H2).
  - vm_compute. discriminate.
  - split; [apply (H1 0%nat); lia | exact H2].
Defined.

(* ==================== Properties: the inventory as a map ==================== *)
Section InventoryFacts.
Context {V : Type}.
Implicit Types (m : JsMap.t V) (k : string) (v : V).

Lemma get_none_not_in k m :
  JsMap.get k m = None <-> ~ List.In k (List.map fst m).
Proof.
  induction m as [|[k' v'] m IH]; simpl; [tauto|].
  destruct (String.eqb_spec k' k) as [->|Hne].
  - split; [discriminate | intros H; exfalso; apply H; now left].
  - rewrite IH. split; [intros H [E|I]; [contradiction | now apply H]
                       | intros H I; apply H; now right].
Qed.

Lemma set_absent k v m :
  JsMap.get k m = None -> JsMap.set k v m = (m ++ [(k, v)])%list.
Proof.
  induction m as [|[k' v'] m IH]; simpl; [reflexivity|].
  destruct (String.eqb k' k); [discriminate|].
  intros H. now rewrite IH.
Qed.

Lemma delete_absent k m :
  JsMap.get k m = None -> JsMap.delete k m = m.
Proof.
  induction m as [|[k' v'] m IH]; simpl; [reflexivity|].
  destruct (String.eqb k' k); [discriminate|].
  intros H. now rewrite IH.
Qed.

Lemma delete_app_last k v m :
  JsMap.get k m = None -> JsMap.delete k (m ++ [(k, v)])%list = m.
Proof.
  induction m as [|[k' v'] m IH]; simpl.
  - now rewrite String.eqb_refl.
  - destruct (String.eqb k' k); [discriminate|].
    intros H. now rewrite IH.
Qed.

Lemma length_delete_present k v m :
  List.NoDup (List.map fst m) ->
  JsMap.get k m = Some v ->
  S (List.length (JsMap.delete k m)) = List.length m.
Proof.
  induction m as [|[k' v'] m IH]; simpl; [discriminate|].
  intros Hnd. inversion Hnd as [|? ? Hin Hnd']; subst.
  destruct (String.eqb_spec k' k) as [->|Hne].
  - intros _. rewrite delete_absent; [reflexivity|].
    now apply get_none_not_in.
  - intros H. simpl. now rewrite IH.
Qed.

Lemma keys_set k v m :
  forall k', List.In k' (List.map fst (JsMap.set k v m)) ->
             k' = k \/ List.In k' (List.map fst m).
Proof.
  induction m as [|[k0 v0] m IH]; simpl; intros k'.
  - intros [<-|[]]. now left.
  - destruct (String.eqb_spec k0 k) as [->|Hne]; simpl.
    + intros [<-|H]; [now left | right; now right].
    + intros [<-|H]; [right; now left|].
      destruct (IH k' H) as [->|H']; [now left | right; now right].
Qed.

Lemma keys_delete k m :
  forall k', List.In k' (List.map fst (JsMap.delete k m)) ->
             List.In k' (List.map fst m).
Proof.
  induction m as [|[k0 v0] m IH]; simpl; intros k'; [tauto|].
  destruct (String.eqb k0 k); simpl.
  - intros H. right. now apply IH.
  - intros [<-|H]; [now left | right; now apply IH].
Qed.

Lemma NoDup_set k v m :
  List.NoDup (List.map fst m) -> List.NoDup (List.map fst (JsMap.set k v m)).
Proof.
  induction m as [|[k0 v0] m IH]; simpl; intros Hnd.
  - constructor; [tauto | constructor].
  - inversion Hnd as [|? ? Hin Hnd']; subst.
    destruct (String.eqb_spec k0 k) as [->|Hne]; simpl.
    + now constructor.
    + constructor; [|now apply IH].
      intros H. destruct (keys_set k v m k0 H) as [E|H']; [congruence | tauto].
Qed.

Lemma NoDup_delete k m :
  List.NoDup (List.map fst m) -> List.NoDup (List.map fst (JsMap.delete k m)).
Proof.
  induction m as [|[k0 v0] m IH]; simpl; intros Hnd; [constructor|].
  inversion Hnd as [|? ? Hin Hnd']; subst.
  destruct (String.eqb k0 k); simpl; [now apply IH|].
  constructor; [|now apply IH].
  intros H. apply Hin. now apply keys_delete in H.
Qed.

Lemma length_set_le k v m :
  (List.length (JsMap.set k v m) <= S (List.length m))%nat.
Proof.
  induction m as [|[k0 v0] m IH]; simpl; [lia|].
  destruct (String.eqb k0 k); simpl; lia.
Qed.

Lemma length_delete_le k m :
  (List.length (JsMap.delete k m) <= List.length m)%nat.
Proof.
  induction m as [|[k0 v0] m IH]; simpl; [lia|].
  destruct (String.eqb k0 k); simpl; lia.
Qed.

End InventoryFacts.

(** X4.  Adding an item whose identifier is not held, with a free slot:
    [addItem] returns true, the item is held and read back by [getItem], it
    comes last in [getAllItems], the count grows by exactly one and every
    other identifier reads as before. *)
Theorem addItem_fresh (inv : Inventory.t) (item : Item.t) :
  (Inventory.getItemCount inv < Inventory.maxSlots inv)%Z ->
  Inventory.hasItem (Item.id item) inv = false ->
  let inv' := fst (Inventory.addItem item inv) in
  snd (Inventory.addItem item inv) = true
  /\ Inventory.hasItem (Item.id item) inv' = true
  /\ Inventory.getItem (Item.id item) inv' = Some item
  /\ Inventory.getAllItems inv' = (Inventory.getAllItems inv ++ [item])%list
  /\ Inventory.getItemCount inv' = (Inventory.getItemCount inv + 1)%Z
  /\ (forall k, k <> Item.id item ->
        Inventory.getItem k inv' = Inventory.getItem k inv).
Proof.
  unfold Inventory.getItemCount, Inventory.hasItem, Inventory.getItem,
    Inventory.getAllItems, Inventory.addItem, JsMap.has.
  intros Hfree Habsent.
  destruct (JsMap.get (Item.id item) (Inventory.items inv)) eqn:Hget;
    [discriminate|].
  destruct (Z.leb_spec (Inventory.maxSlots inv)
              (JsMap.size (Inventory.items inv))); [lia|].
  cbn. rewrite get_set_eq. repeat split.
  - rewrite set_absent by exact Hget. unfold JsMap.values.
    now rewrite List.map_app.
  - rewrite set_absent by exact Hget. unfold JsMap.size.
    rewrite List.length_app. cbn. lia.
  - intros k Hk. apply get_set_ne. congruence.
Qed.

(** The diary added to an inventory that holds the small key. *)
Lemma addItem_fresh_witness :
  let key := Item.new "small_key" "🔑 小钥匙" "一把银色的小钥匙，可以打开抽屉" "🔑" true in
  let diary := Item.new "diary" "📔 日记本" "日记最后一页：记住，密码锁的顺序是反的" "📔" true in
  let inv := fst (Inventory.addItem key Inventory.new) in
  Inventory.getAllItems (fst (Inventory.addItem diary inv)) = [key; diary]
  /\ Inventory.getItemCount (fst (Inventory.addItem diary inv)) = 2%Z.
Proof.
  intros key diary inv.
  destruct (addItem_fresh inv diary) as (_ & _ & _ & Hall & Hcount & _).
  - reflexivity.
  - reflexivity.
  - split; [exact Hall | exact Hcount].
Defined.

(** X5.  Removing a held identifier returns true, after which it is not
    held, every other identifier reads as before and, the keys of the map
    being distinct, the count is one less; removing an identifier that is not
    held returns false and changes nothing. *)
Theorem removeItem_cases (inv : Inventory.t) (itemId : string) :
  List.NoDup (List.map fst (Inventory.items inv)) ->
  let inv' := fst (Inventory.removeItem itemId inv) in
  let removed := snd (Inventory.removeItem itemId inv) in
  removed = Inventory.hasItem itemId inv
  /\ Inventory.hasItem itemId inv' = false
  /\ (forall k, k <> itemId ->
        Inventory.getItem k inv' = Inventory.getItem k inv)
  /\ (removed = true ->
        Inventory.getItemCount inv' = (Inventory.getItemCount inv - 1)%Z)
  /\ (removed = false -> inv' = inv).
Proof.
  unfold Inventory.getItemCount, Inventory.hasItem, Inventory.getItem,
    Inventory.removeItem, JsMap.has.
  intros Hnd.
  destruct (JsMap.get itemId (Inventory.items inv)) as [v|] eqn:Hget; cbn.
  - rewrite get_delete_eq. repeat split; try discriminate.
    + intros k Hk. apply get_delete_ne. congruence.
    + intros _. unfold JsMap.size.
      rewrite <- (length_delete_present itemId v _ Hnd Hget). lia.
  - rewrite Hget. repeat split; try discriminate.
Qed.

(** The small key removed from an inventory that holds it and the diary. *)
Lemma removeItem_cases_witness :
  let key := Item.new "small_key" "🔑 小钥匙" "一把银色的小钥匙，可以打开抽屉" "🔑" true in
  let diary := Item.new "diary" "📔 日记本" "日记最后一页：记住，密码锁的顺序是反的" "📔" true in
  let inv := Inventory.mk [("small_key", key); ("diary", diary)] 20 in
  snd (Inventory.removeItem "small_key" inv) = true
  /\ Inventory.getItemCount (fst (Inventory.removeItem "small_key" inv)) = 1%Z.
Proof.
  intros key diary inv.
  destruct (removeItem_cases inv "small_key") as (Hr & _ & _ & Hc & _).
  - repeat constructor; cbn; intuition discriminate.
  - split; [exact Hr | exact (Hc Hr)].
Defined.

(** X6.  Add then remove is a round trip: for an identifier that is not
    held and a free slot, removing the identifier just added returns true and
    gives back the inventory as it was, order included. *)
Theorem addItem_removeItem (inv : Inventory.t) (item : Item.t) :
  (Inventory.getItemCount inv < Inventory.maxSlots inv)%Z ->
  Inventory.hasItem (Item.id item) inv = false ->
  Inventory.removeItem (Item.id item) (fst (Inventory.addItem item inv))
  = (inv, true).
Proof.
  unfold Inventory.getItemCount, Inventory.hasItem, Inventory.addItem,
    Inventory.removeItem, JsMap.has.
  intros Hfree Habsent.
  destruct (JsMap.get (Item.id item) (Inventory.items inv)) eqn:Hget;
    [discriminate|].
  destruct (Z.leb_spec (Inventory.maxSlots inv)
              (JsMap.size (Inventory.items inv))); [lia|].
  cbn. rewrite get_set_eq, set_absent, delete_app_last by exact Hget.
  now destruct inv.
Qed.

(** The diary added to and removed from an inventory holding the small
    key. *)
Lemma addItem_removeItem_witness :
  let key := Item.new "small_key" "🔑 小钥匙" "一把银色的小钥匙，可以打开抽屉" "🔑" true in
  let diary := Item.new "diary" "📔 日记本" "日记最后一页：记住，密码锁的顺序是反的" "📔" true in
  let inv := fst (Inventory.addItem key Inventory.new) in
  Inventory.removeItem "diary" (fst (Inventory.addItem diary inv)) = (inv, true).
Proof.
  intros key diary inv.
  apply (addItem_removeItem inv diary); reflexivity.
Defined.

Section WellFormedInventory.

Lemma Forall_set {V : Type} (P : string * V -> Prop) k v (m : JsMap.t V) :
  P (k, v) -> List.Forall P m -> List.Forall P (JsMap.set k v m).
Proof.
  intros Hkv. induction 1 as [|[k0 v0] m H0 Hm IH]; simpl.
  - now constructor.
  - destruct (String.eqb k0 k); constructor; assumption.
Qed.

Lemma Forall_delete {V : Type} (P : string * V -> Prop) k (m : JsMap.t V) :
  List.Forall P m -> List.Forall P (JsMap.delete k m).
Proof.
  induction 1 as [|[k0 v0] m H0 Hm IH]; simpl; [constructor|].
  destruct (String.eqb k0 k); [exact IH | now constructor].
Qed.

Lemma addItem_wellFormed (item : Item.t) (inv : Inventory.t) :
  InventoryTrace.wellFormed inv ->
  InventoryTrace.wellFormed (fst (Inventory.addItem item inv))
  /\ Inventory.maxSlots (fst (Inventory.addItem item inv))
     = Inventory.maxSlots inv.
Proof.
  intros (Hnd & Hk & Hb). unfold Inventory.addItem.
  destruct (Z.leb_spec (Inventory.maxSlots inv)
              (JsMap.size (Inventory.items inv))) as [Hfull|Hfree];
    [now repeat split|].
  destruct (match JsMap.get _ _ with Some _ => _ | None => _ end);
    [now repeat split|].
  cbn. repeat split; cbn.
  - now apply NoDup_set.
  - now apply Forall_set.
  - unfold Inventory.getItemCount, JsMap.size in *. cbn.
    pose proof (length_set_le (Item.id item) item (Inventory.items inv)). lia.
Qed.

Lemma removeItem_wellFormed (itemId : string) (inv : Inventory.t) :
  InventoryTrace.wellFormed inv ->
  InventoryTrace.wellFormed (fst (Inventory.removeItem itemId inv))
  /\ Inventory.maxSlots (fst (Inventory.removeItem itemId inv))
     = Inventory.maxSlots inv.
Proof.
  intros (Hnd & Hk & Hb). unfold Inventory.removeItem.
  destruct (JsMap.has itemId (Inventory.items inv)); [|now repeat split].
  cbn. repeat split; cbn.
  - now apply NoDup_delete.
  - now apply Forall_delete.
  - unfold Inventory.getItemCount, JsMap.size in *. cbn.
    pose proof (length_delete_le itemId (Inventory.items inv)). lia.
Qed.

Lemma step_wellFormed (o : InventoryTrace.op) (inv : Inventory.t) :
  InventoryTrace.wellFormed inv ->
  InventoryTrace.wellFormed (InventoryTrace.step inv o)
  /\ Inventory.maxSlots (InventoryTrace.step inv o) = Inventory.maxSlots inv.
Proof.
  intros Hwf. destruct o as [item|itemId|]; simpl.
  - now apply addItem_wellFormed.
  - now apply removeItem_wellFormed.
  - destruct Hwf as (_ & _ & Hb).
    unfold InventoryTrace.wellFormed, Inventory.getItemCount, JsMap.size in *.
    cbn. repeat split; try constructor.
    pose proof (Nat2Z.is_nonneg (List.length (Inventory.items inv))). lia.
Qed.

End WellFormedInventory.

(** X7.  The inventory keeps its shape and its bound: after any sequence of
    [addItem], [removeItem] and [clear] calls on an inventory that has no
    key twice, every item under its own identifier and no more items than
    slots, the same holds, with the same number of slots. *)
Theorem inventory_wellFormed (ops : list InventoryTrace.op) (inv : Inventory.t) :
  InventoryTrace.wellFormed inv ->
  InventoryTrace.wellFormed (InventoryTrace.run ops inv)
  /\ Inventory.maxSlots (InventoryTrace.run ops inv) = Inventory.maxSlots inv
  /\ (Inventory.getItemCount (InventoryTrace.run ops inv)
      <= Inventory.maxSlots inv)%Z.
Proof.
  revert inv. unfold InventoryTrace.run.
  induction ops as [|o ops IH]; intros inv Hwf; simpl.
  - split; [exact Hwf|]. split; [reflexivity | apply Hwf].
  - destruct (step_wellFormed o inv Hwf) as [Hwf' Hm].
    destruct (IH _ Hwf') as (A & B & C).
    rewrite Hm in B, C. split; [exact A|]. split; [exact B | exact C].
Qed.

(** Three items offered to an inventory of two slots. *)
Lemma inventory_wellFormed_witness :
  let it n := Item.new n n n n true in
  let inv :=
    InventoryTrace.run
      [InventoryTrace.Add (it "a"); InventoryTrace.Add (it "b");
       InventoryTrace.Add (it "c")]
      (Inventory.mk [] 2) in
  (Inventory.getItemCount inv <= 2)%Z
  /\ Inventory.getAllItems inv = [it "a"; it "b"].
Proof.
  intros it inv.
  destruct (inventory_wellFormed
              [InventoryTrace.Add (it "a"); InventoryTrace.Add (it "b");
               InventoryTrace.Add (it "c")]
              (Inventory.mk [] 2)) as (_ & _ & Hb).
  - split; [constructor|]. split; [constructor|].
    unfold Inventory.getItemCount, JsMap.size. cbn. lia.
  - split; [exact Hb | reflexivity].
Defined.

(* ==================== Properties: the state store ==================== *)

(** X8.  The state store reads back what was written and keeps its two
    maps apart: after [set key value], [get key] is [value] and [has key]
    is true (also for the value false), every other key reads as before and
    no flag changes; after [setFlag flag value], [hasFlag flag] is [value],
    every other flag reads as before and no state changes. *)
Theorem gameState_set_get
  (gs : GameState.t) (key flag other : string) (value : bool) :
  GameState.get key (GameState.set key value gs) = value
  /\ GameState.has key (GameState.set key value gs) = true
  /\ GameState.hasFlag other (GameState.set key value gs)
     = GameState.hasFlag other gs
  /\ GameState.hasFlag flag (GameState.setFlag flag value gs) = value
  /\ GameState.get other (GameState.setFlag flag value gs)
     = GameState.get other gs
  /\ GameState.has other (GameState.setFlag flag value gs)
     = GameState.has other gs
  /\ (other <> key ->
      GameState.get other (GameState.set key value gs) = GameState.get other gs
      /\ GameState.has other (GameState.set key value gs)
         = GameState.has other gs)
  /\ (other <> flag ->
      GameState.hasFlag other (GameState.setFlag flag value gs)
      = GameState.hasFlag other gs).
Proof.
  unfold GameState.get, GameState.has, GameState.hasFlag, GameState.set,
    GameState.setFlag. cbn.
  rewrite !lookup_insert_eq, orb_false_r.
  repeat split; try reflexivity; intros;
    now rewrite lookup_insert_ne by congruence.
Qed.

(** A state written as false is there, reads false, and leaves another
    key alone. *)
Lemma gameState_set_get_witness :
  let gs := GameState.set "safePasswordKnown" true GameState.new in
  GameState.get "gameComplete" (GameState.set "gameComplete" false gs) = false
  /\ GameState.has "gameComplete" (GameState.set "gameComplete" false gs) = true
  /\ GameState.get "safePasswordKnown" (GameState.set "gameComplete" false gs)
     = true.
Proof.
  intros gs.
  destruct (gameState_set_get gs "gameComplete" "f" "safePasswordKnown" false)
    as (Hg & Hh & _ & _ & _ & _ & Hother & _).
  split; [exact Hg|]. split; [exact Hh|].
  destruct Hother as [Ho _]; [discriminate|].
  rewrite Ho. reflexivity.
Defined.

(* ==================== Properties: executing actions ==================== *)

Lemma executeActions_app (xs ys : list InteractionAction.t) (s : ClueSystem.t) :
  EngineTrace.allSucceed xs s = true ->
  ClueSystem.executeActions (xs ++ ys)%list s
  = ClueSystem.executeActions ys (EngineTrace.stateAfter xs s).
Proof.
  revert s. induction xs as [|x xs IH]; intros s; simpl; [reflexivity|].
  destruct (ClueSystem.executeAction x s) as [s1 r1]; simpl.
  destruct (Outcome.success r1); simpl; [apply IH | discriminate].
Qed.

(** X9.  An action list stops at its first failing action and nothing is
    rolled back: when the actions before it all succeed and the action
    itself fails, [executeActions] returns that action's outcome as it is,
    with the engine as the earlier actions and the failing one left it; the
    actions after it play no part. *)
Theorem executeActions_first_failure
  (before after : list InteractionAction.t) (a : InteractionAction.t)
  (s : ClueSystem.t) :
  EngineTrace.allSucceed before s = true ->
  Outcome.success
    (snd (ClueSystem.executeAction a (EngineTrace.stateAfter before s))) = false ->
  ClueSystem.executeActions (before ++ a :: after)%list s
  = ClueSystem.executeAction a (EngineTrace.stateAfter before s).
Proof.
  intros Hall Hfail. rewrite executeActions_app by exact Hall. simpl.
  destruct (ClueSystem.executeAction a _) as [s1 r1]. simpl in *.
  now rewrite Hfail.
Qed.

(** A grant followed by a requirement that is not met: the grant stays. *)
Lemma executeActions_first_failure_witness :
  let requirement :=
    InteractionAction.require_item
      (InteractionAction.mkRequire "golden_key" "❌ 需要金钥匙" "门被牢牢锁住了，需要找到钥匙...") in
  let r :=
    ClueSystem.executeActions
      [InteractionAction.give_item "diary"; requirement;
       InteractionAction.set_state "gameComplete" true]
      ClueSystem.new in
  Outcome.type (snd r) = Some "requirement_missing"
  /\ ClueSystem.hasItem "diary" (fst r) = true
  /\ ClueSystem.isGameComplete (fst r) = false.
Proof.
  intros requirement r. subst r.
  pose proof (executeActions_first_failure
                [InteractionAction.give_item "diary"]
                [InteractionAction.set_state "gameComplete" true]
                requirement ClueSystem.new eq_refl eq_refl) as H.
  change ([InteractionAction.give_item "diary"]
          ++ [requirement; InteractionAction.set_state "gameComplete" true])%list
    with [InteractionAction.give_item "diary"; requirement;
          InteractionAction.set_state "gameComplete" true] in H.
  rewrite H. repeat split.
Defined.

(** X10.  Granting a template that is not held, with a free slot: the
    action succeeds with type [item_received] and carries the template; a
    copy of it is then held, last in the inventory, the count is one more,
    and the state store, the lock and the scene are untouched. *)
Theorem give_item_received
  (s : ClueSystem.t) (itemId : string) (item : Item.t) :
  ClueSystem.items s !! itemId = Some item ->
  Item.id item = itemId ->
  ClueSystem.hasItem itemId s = false ->
  (Inventory.getItemCount (ClueSystem.inventory s)
   < Inventory.maxSlots (ClueSystem.inventory s))%Z ->
  let s' := fst (ClueSystem.executeAction (InteractionAction.give_item itemId) s) in
  snd (ClueSystem.executeAction (InteractionAction.give_item itemId) s)
  = ClueSystem.itemOutcome "item_received" item
  /\ ClueSystem.hasItem itemId s' = true
  /\ ClueSystem.getInventory s' = (ClueSystem.getInventory s ++ [item])%list
  /\ Inventory.getItemCount (ClueSystem.inventory s')
     = (Inventory.getItemCount (ClueSystem.inventory s) + 1)%Z
  /\ ClueSystem.gameState s' = ClueSystem.gameState s
  /\ ClueSystem.passwordSystem s' = ClueSystem.passwordSystem s
  /\ ClueSystem.sceneObjects s' = ClueSystem.sceneObjects s.
Proof.
  intros Hitem Hid Hnot Hfree. unfold ClueSystem.hasItem in Hnot.
  assert (Hclone : Item.clone item = item) by now destruct item.
  destruct (addItem_fresh (ClueSystem.inventory s) item Hfree)
    as (Hadd & Hhas & _ & Hall & Hcount & _); [now rewrite Hid|].
  cbn. rewrite Hitem, Hid, Hnot, Hclone.
  destruct (Inventory.addItem item (ClueSystem.inventory s)) as [inv' added].
  cbn in *. subst added. rewrite Hid in Hhas.
  unfold ClueSystem.hasItem, ClueSystem.getInventory. cbn.
  now repeat split.
Qed.

(** The crumpled paper granted in a fresh run. *)
Lemma give_item_received_witness :
  let paper := Item.new "crumpled_paper" "📄 皱纸团" "从垃圾桶里找到的纸团，上面写着：7-2-4-9" "📄" true in
  let r := ClueSystem.executeAction
             (InteractionAction.give_item "crumpled_paper") ClueSystem.new in
  snd r = ClueSystem.itemOutcome "item_received" paper
  /\ ClueSystem.getInventory (fst r) = [paper].
Proof.
  intros paper r.
  destruct (give_item_received ClueSystem.new "crumpled_paper" paper)
    as (Hr & _ & Hall & _).
  - vm_compute. reflexivity.
  - reflexivity.
  - reflexivity.
  - reflexivity.
  - split; [exact Hr | exact Hall].
Defined.

(** X11.  The two ways a grant fails, both without any change to the
    engine: an identifier that names neither a template nor a member the
    templates object inherits fails with the missing-item message, and a
    template that is not held fails with the cannot-obtain message when the
    inventory has no free slot. *)
Theorem give_item_fails (s : ClueSystem.t) (itemId : string) :
  (ClueSystem.items s !! itemId = None ->
   ~ List.In itemId JsObject.inheritedNames ->
   ClueSystem.executeAction (InteractionAction.give_item itemId) s
   = (s, Outcome.plain false ClueSystem.msgNoItem))
  /\ (forall item,
        ClueSystem.items s !! itemId = Some item ->
        Inventory.hasItem (Item.id item) (ClueSystem.inventory s) = false ->
        (Inventory.maxSlots (ClueSystem.inventory s)
         <= Inventory.getItemCount (ClueSystem.inventory s))%Z ->
        ClueSystem.executeAction (InteractionAction.give_item itemId) s
        = (s, Outcome.plain false ClueSystem.msgCannotGet)).
Proof.
  split.
  - intros Hnone _. cbn. now rewrite Hnone.
  - intros item Hitem Hnot Hfull. cbn. rewrite Hitem, Hnot.
    unfold Inventory.addItem, Inventory.getItemCount in *.
    destruct (Z.leb_spec (Inventory.maxSlots (ClueSystem.inventory s))
                (JsMap.size (Inventory.items (ClueSystem.inventory s))));
      [|lia].
    now destruct s.
Qed.

(** No template and no inherited member is called map; and the diary does
    not fit into a full inventory of one slot. *)
Lemma give_item_fails_witness :
  let key := Item.new "small_key" "🔑 小钥匙" "一把银色的小钥匙，可以打开抽屉" "🔑" true in
  let full :=
    ClueSystem.set_inventory (Inventory.mk [("small_key", key)] 1)
      ClueSystem.new in
  ClueSystem.executeAction (InteractionAction.give_item "map") ClueSystem.new
  = (ClueSystem.new, Outcome.plain false ClueSystem.msgNoItem)
  /\ ClueSystem.executeAction (InteractionAction.give_item "diary") full
     = (full, Outcome.plain false ClueSystem.msgCannotGet).
Proof.
  intros key full. split.
  - apply (give_item_fails ClueSystem.new "map").
    + vm_compute. reflexivity.
    + cbn. intuition discriminate.
  - apply (give_item_fails full "diary") with
      (item := Item.new "diary" "📔 日记本" "日记最后一页：记住，密码锁的顺序是反的" "📔" true).
    + vm_compute. reflexivity.
    + reflexivity.
    + unfold Inventory.getItemCount, JsMap.size. cbn. lia.
Defined.

(** X12.  Consuming an item: when the identifier is held the action
    succeeds and the identifier is no longer held; when it is not held the
    action fails with the cannot-consume message and the engine is as it
    was.  Either way the state store, the lock and the scene are
    untouched. *)
Theorem consume_item_cases (s : ClueSystem.t) (itemId : string) :
  let s' := fst (ClueSystem.executeAction (InteractionAction.consume_item itemId) s) in
  let result :=
    snd (ClueSystem.executeAction (InteractionAction.consume_item itemId) s) in
  ClueSystem.hasItem itemId s' = false
  /\ ClueSystem.gameState s' = ClueSystem.gameState s
  /\ ClueSystem.passwordSystem s' = ClueSystem.passwordSystem s
  /\ ClueSystem.sceneObjects s' = ClueSystem.sceneObjects s
  /\ (ClueSystem.hasItem itemId s = true ->
      result = Outcome.typed true "item_consumed")
  /\ (ClueSystem.hasItem itemId s = false ->
      result = Outcome.plain false ClueSystem.msgCannotConsume /\ s' = s).
Proof.
  unfold ClueSystem.hasItem, Inventory.hasItem. cbn.
  unfold Inventory.removeItem.
  destruct (JsMap.has itemId (Inventory.items (ClueSystem.inventory s)))
    eqn:Hhas; cbn.
  - unfold JsMap.has. rewrite get_delete_eq.
    repeat split; try discriminate.
  - rewrite Hhas. repeat split; try discriminate. now destruct s.
Qed.

(** An inventory that holds the small key, and one that does not. *)
Lemma consume_item_cases_witness :
  let key := Item.new "small_key" "🔑 小钥匙" "一把银色的小钥匙，可以打开抽屉" "🔑" true in
  let s :=
    ClueSystem.set_inventory (Inventory.mk [("small_key", key)] 20)
      ClueSystem.new in
  snd (ClueSystem.executeAction (InteractionAction.consume_item "small_key") s)
  = Outcome.typed true "item_consumed"
  /\ ClueSystem.executeAction (InteractionAction.consume_item "small_key")
       ClueSystem.new
     = (ClueSystem.new, Outcome.plain false ClueSystem.msgCannotConsume).
Proof.
  intros key s. split.
  - destruct (consume_item_cases s "small_key") as (_ & _ & _ & _ & H & _).
    exact (H eq_refl).
  - destruct (consume_item_cases ClueSystem.new "small_key")
      as (_ & _ & _ & _ & _ & H).
    destruct (H eq_refl) as [Hr Hs].
    apply injective_projections; [exact Hs | exact Hr].
Defined.

(* ==================== Properties: interact ==================== *)
Section InteractFacts.
Import ClueSystem.

(** Actions neither read nor write the scene. *)
Lemma executeAction_sceneObjects (a : InteractionAction.t)
      (m : gmap string SceneObject.t) (s : t) :
  executeAction a (set_sceneObjects m s)
  = (set_sceneObjects m (fst (executeAction a s)), snd (executeAction a s)).
Proof.
  destruct a; cbn; try reflexivity.
  - destruct (items s !! payload); [|reflexivity].
    destruct (Inventory.hasItem _ _); [reflexivity|].
    destruct (Inventory.addItem _ _) as [i b]; now destruct b.
  - now destruct (Inventory.hasItem _ _).
  - destruct (Inventory.removeItem _ _) as [i b]; now destruct b.
Qed.

Lemma executeActions_sceneObjects (actions : list InteractionAction.t)
      (m : gmap string SceneObject.t) (s : t) :
  executeActions actions (set_sceneObjects m s)
  = (set_sceneObjects m (fst (executeActions actions s)),
     snd (executeActions actions s)).
Proof.
  revert s. induction actions as [|a rest IH]; intros s; simpl; [reflexivity|].
  rewrite executeAction_sceneObjects.
  destruct (executeAction a s) as [s1 r1]; simpl.
  destruct (Outcome.success r1); simpl; [apply IH | reflexivity].
Qed.

Lemma executeActions_frame (actions : list InteractionAction.t) (s : t) :
  let s' := fst (executeActions actions s) in
  sceneObjects s' = sceneObjects s /\ items s' = items s
  /\ passwordSystem s' = passwordSystem s
  /\ interactions s' = interactions s.
Proof.
  destruct (stateAfter_executeActions actions s) as [done ->].
  apply stateAfter_frame.
Qed.

End InteractFacts.

(** X13.  The two refusals of [interact] that come before any action: an
    object without interactions answers with the nothing-special message,
    and an object whose first interaction has a condition that evaluates
    false answers with the not-now message; in both cases no action runs and
    the engine is exactly as it was. *)
Theorem interact_refused
  (s : ClueSystem.t) (objectId : string) (object : SceneObject.t) :
  ClueSystem.sceneObjects s !! objectId = Some object ->
  (SceneObject.interactions object = [] ->
   ClueSystem.interact objectId s
   = (s, Outcome.plain false ClueSystem.msgNothingSpecial))
  /\ (forall interaction others condition,
        SceneObject.interactions object = interaction :: others ->
        List.In condition (Interaction.conditions interaction) ->
        TriggerCondition.evaluate condition (ClueSystem.inventory s)
          (ClueSystem.gameState s) = false ->
        ClueSystem.interact objectId s
        = (s, Outcome.plain false ClueSystem.msgCannotNow)).
Proof.
  intros Hobj. unfold ClueSystem.interact. rewrite Hobj. split.
  - intros ->. reflexivity.
  - intros i others c -> Hin Hc.
    assert (Hcan : Interaction.canExecute i (ClueSystem.inventory s)
                     (ClueSystem.gameState s) = false).
    { unfold Interaction.canExecute.
      destruct (forallb _ _) eqn:E; [|reflexivity].
      rewrite List.forallb_forall in E. rewrite (E c Hin) in Hc.
      discriminate. }
    now rewrite Hcan.
Qed.

(** The plant once the small key is held: its condition is that the key
    is not held. *)
Lemma interact_refused_witness :
  let s := fst (ClueSystem.interact "plant" ClueSystem.new) in
  ClueSystem.interact "plant" s
  = (s, Outcome.plain false ClueSystem.msgCannotNow).
Proof.
  intros s.
  destruct (interact_refused s "plant"
              (SceneObject.set_interactions
                 [Interaction.set_executed true ClueSystem.plantInteraction]
                 (SceneObject.new "plant" "🪴 盆栽" "一盆枯萎的绿植"
                    (SceneObject.mkPosition 2.5 0 1.5)))) as [_ H].
  - vm_compute. reflexivity.
  - apply (H (Interaction.set_executed true ClueSystem.plantInteraction) []
             (TriggerCondition.no_item "small_key")).
    + reflexivity.
    + now left.
    + reflexivity.
Defined.

(** X14.  When an action of the first interaction fails, [interact] returns
    what [executeActions] returns: the failing action's outcome, with the
    effects of the actions before it kept, and the interaction is not marked
    as executed (the scene is as it was). *)
Theorem interact_failed_action
  (s : ClueSystem.t) (objectId : string) (object : SceneObject.t)
  (interaction : Interaction.t) (others : list Interaction.t) :
  ClueSystem.sceneObjects s !! objectId = Some object ->
  SceneObject.interactions object = interaction :: others ->
  Interaction.canExecute interaction (ClueSystem.inventory s)
    (ClueSystem.gameState s) = true ->
  Outcome.success
    (snd (ClueSystem.executeActions (Interaction.actions interaction) s))
  = false ->
  ClueSystem.interact objectId s
  = ClueSystem.executeActions (Interaction.actions interaction) s
  /\ ClueSystem.sceneObjects (fst (ClueSystem.interact objectId s))
     = ClueSystem.sceneObjects s.
Proof.
  intros Hobj Hint Hcan Hfail. unfold ClueSystem.interact.
  rewrite Hobj, Hint, Hcan. cbn.
  pose proof (executeActions_frame (Interaction.actions interaction) s)
    as (Hscene & _).
  destruct (ClueSystem.executeActions _ s) as [s1 r1]. cbn in *.
  rewrite Hfail. cbn. now split.
Qed.

(** The door of a fresh run: the golden key is missing. *)
Lemma interact_failed_action_witness :
  Outcome.type (snd (ClueSystem.interact "door" ClueSystem.new))
  = Some "requirement_missing"
  /\ ClueSystem.sceneObjects (fst (ClueSystem.interact "door" ClueSystem.new))
     = ClueSystem.sceneObjects ClueSystem.new.
Proof.
  destruct (interact_failed_action ClueSystem.new "door"
              (SceneObject.addInteraction ClueSystem.doorInteraction
                 (SceneObject.new "door" "🚪 房门" "被密码锁锁住了"
                    (SceneObject.mkPosition 2.5 1.15 0)))
              ClueSystem.doorInteraction []) as [Hr Hs].
  - vm_compute. reflexivity.
  - reflexivity.
  - reflexivity.
  - reflexivity.
  - split; [now rewrite Hr | exact Hs].
Defined.

(** X15.  What [interact] can touch: it never changes the lock, the item
    templates or any scene object other than the one named, and the named
    object is either as it was or differs only in that its first interaction
    is marked as executed. *)
Theorem interact_frame (s : ClueSystem.t) (objectId other : string) :
  let s' := fst (ClueSystem.interact objectId s) in
  ClueSystem.passwordSystem s' = ClueSystem.passwordSystem s
  /\ ClueSystem.items s' = ClueSystem.items s
  /\ ClueSystem.interactions s' = ClueSystem.interactions s
  /\ (other <> objectId ->
      ClueSystem.sceneObjects s' !! other = ClueSystem.sceneObjects s !! other)
  /\ (ClueSystem.sceneObjects s' !! objectId
      = ClueSystem.sceneObjects s !! objectId
      \/ exists object interaction others,
           ClueSystem.sceneObjects s !! objectId = Some object
           /\ SceneObject.interactions object = interaction :: others
           /\ ClueSystem.sceneObjects s' !! objectId
              = Some (SceneObject.set_interactions
                        (Interaction.set_executed true interaction :: others)
                        object)).
Proof.
  unfold ClueSystem.interact.
  destruct (ClueSystem.sceneObjects s !! objectId) as [object|] eqn:Hobj;
    [|cbn; rewrite Hobj; now repeat split; auto].
  destruct (SceneObject.interactions object) as [|i others] eqn:Hint;
    [cbn; rewrite Hobj; now repeat split; auto|].
  destruct (negb _); [cbn; rewrite Hobj; now repeat split; auto|].
  pose proof (executeActions_frame (Interaction.actions i) s)
    as (Hscene & Hitems & Hlock & Hints).
  destruct (ClueSystem.executeActions _ s) as [s1 r1]. cbn in *.
  destruct (Outcome.success r1); cbn.
  - repeat split; try assumption.
    + intros Hne. rewrite lookup_insert_ne by congruence. now rewrite Hscene.
    + right. exists object, i, others. rewrite lookup_insert_eq.
      now repeat split.
  - rewrite Hscene, Hobj. repeat split; try assumption. now left.
Qed.

(** The plant of a fresh run: the drawer is not touched. *)
Lemma interact_frame_witness :
  ClueSystem.sceneObjects (fst (ClueSystem.interact "plant" ClueSystem.new))
    !! "desk_drawer"
  = ClueSystem.sceneObjects ClueSystem.new !! "desk_drawer".
Proof.
  destruct (interact_frame ClueSystem.new "plant" "desk_drawer")
    as (_ & _ & _ & H & _).
  apply H. discriminate.
Defined.

(** X16.  Only the first interaction of an object is ever used: adding a
    further interaction to an object that already has one changes neither
    the outcome of [interact] on it nor what [interact] does to the
    inventory and the state store. *)
Theorem interact_uses_first
  (s : ClueSystem.t) (objectId : string) (object : SceneObject.t)
  (added : Interaction.t) :
  ClueSystem.sceneObjects s !! objectId = Some object ->
  SceneObject.interactions object <> [] ->
  let s2 := ClueSystem.addInteractionTo objectId added s in
  snd (ClueSystem.interact objectId s2) = snd (ClueSystem.interact objectId s)
  /\ ClueSystem.inventory (fst (ClueSystem.interact objectId s2))
     = ClueSystem.inventory (fst (ClueSystem.interact objectId s))
  /\ ClueSystem.gameState (fst (ClueSystem.interact objectId s2))
     = ClueSystem.gameState (fst (ClueSystem.interact objectId s)).
Proof.
  intros Hobj Hne s2. subst s2.
  unfold ClueSystem.interact, ClueSystem.addInteractionTo.
  cbn [ClueSystem.sceneObjects ClueSystem.set_sceneObjects].
  rewrite lookup_alter_eq, Hobj. cbn.
  destruct (SceneObject.interactions object) as [|i others];
    [contradiction|].
  cbn. destruct (Interaction.canExecute i _ _); cbn; [|now repeat split].
  rewrite executeActions_sceneObjects.
  destruct (ClueSystem.executeActions (Interaction.actions i) s) as [s1 r1].
  cbn. destruct (Outcome.success r1); now repeat split.
Qed.

(** A second interaction added to the trash bin of a fresh run. *)
Lemma interact_uses_first_witness :
  let s2 :=
    ClueSystem.addInteractionTo "trash_bin" ClueSystem.doorInteraction
      ClueSystem.new in
  snd (ClueSystem.interact "trash_bin" s2)
  = snd (ClueSystem.interact "trash_bin" ClueSystem.new).
Proof.
  intros s2.
  destruct (interact_uses_first ClueSystem.new "trash_bin"
              (SceneObject.addInteraction ClueSystem.trashInteraction
                 (SceneObject.new "trash_bin" "🗑️ 垃圾桶" "一个金属垃圾桶"
                    (SceneObject.mkPosition 1.5 0 0.5)))
              ClueSystem.doorInteraction) as [H _].
  - vm_compute. reflexivity.
  - discriminate.
  - exact H.
Defined.

(* ==================== Properties: the password methods ==================== *)

(** X17.  The password methods of the engine act on the lock alone:
    [enterPasswordDigit] changes nothing but the lock, and
    [submitPassword] changes nothing but the lock and, when it succeeds, the
    state store; neither touches the inventory, the scene or the
    templates. *)
Theorem password_methods_frame (s : ClueSystem.t) (digit : string) :
  let e := fst (ClueSystem.enterPasswordDigit digit s) in
  let p := fst (ClueSystem.submitPassword s) in
  (ClueSystem.inventory e = ClueSystem.inventory s
   /\ ClueSystem.gameState e = ClueSystem.gameState s
   /\ ClueSystem.sceneObjects e = ClueSystem.sceneObjects s
   /\ ClueSystem.items e = ClueSystem.items s)
  /\ (ClueSystem.inventory p = ClueSystem.inventory s
      /\ ClueSystem.sceneObjects p = ClueSystem.sceneObjects s
      /\ ClueSystem.items p = ClueSystem.items s)
  /\ (Outcome.success (snd (ClueSystem.submitPassword s)) = false ->
      ClueSystem.gameState p = ClueSystem.gameState s)
  /\ snd (ClueSystem.enterPasswordDigit digit s)
     = snd (PasswordSystem.enterDigit digit (ClueSystem.passwordSystem s))
  /\ snd (ClueSystem.submitPassword s)
     = snd (PasswordSystem.submitPassword (ClueSystem.passwordSystem s)).
Proof.
  unfold ClueSystem.enterPasswordDigit, ClueSystem.submitPassword.
  destruct (PasswordSystem.enterDigit digit _) as [l1 r1].
  destruct (PasswordSystem.submitPassword _) as [l2 r2].
  cbn. destruct (Outcome.success r2) eqn:E; cbn; repeat split;
    intros; first [reflexivity | congruence].
Qed.

(** A wrong submission in a fresh run leaves the state store empty. *)
Lemma password_methods_frame_witness :
  ClueSystem.gameState (fst (ClueSystem.submitPassword ClueSystem.new))
  = ClueSystem.gameState ClueSystem.new.
Proof.
  destruct (password_methods_frame ClueSystem.new "1") as (_ & _ & H & _).
  apply H. reflexivity.
Defined.

Section LockMore.
Import PasswordSystem.

Lemma append_assoc (a b c : string) : (a +:+ b) +:+ c = a +:+ (b +:+ c).
Proof.
  induction a as [|x a IH]; [reflexivity|].
  change (String x ((a +:+ b) +:+ c) = String x (a +:+ (b +:+ c))).
  now rewrite IH.
Qed.

Lemma append_nil_r (a : string) : a +:+ EmptyString = a.
Proof.
  induction a as [|x a IH]; [reflexivity|].
  change (String x (a +:+ EmptyString) = String x a). now rewrite IH.
Qed.

Lemma enterDigits_suffix (suffix : string) (l : t) (prefix : string) :
  locked l = false ->
  enteredPassword l = prefix ->
  correctPassword l = prefix +:+ suffix ->
  LockTrace.enterDigits (LockTrace.digitsOf suffix) l
  = set_enteredPassword (correctPassword l) l.
Proof.
  revert l prefix. unfold LockTrace.enterDigits, LockTrace.run.
  induction suffix as [|c suffix IH]; intros l prefix Hl He Hc; simpl.
  - destruct l as [cp ep ma al lk]. cbn in *. subst.
    unfold set_enteredPassword. cbn. f_equal.
    symmetry. apply append_nil_r.
  - assert (Hstep : fst (enterDigit (String c EmptyString) l)
                    = set_enteredPassword (prefix +:+ String c EmptyString) l).
    { unfold enterDigit. rewrite Hl.
      destruct (Nat.ltb_spec (String.length (enteredPassword l))
                  (String.length (correctPassword l))) as [_|Hge].
      - cbn. now rewrite He.
      - rewrite He, Hc, length_append in Hge. cbn in Hge. lia. }
    rewrite Hstep.
    rewrite (IH _ (prefix +:+ String c EmptyString)).
    + reflexivity.
    + exact Hl.
    + reflexivity.
    + cbn. rewrite Hc, append_assoc. reflexivity.
Qed.

Lemma attempts_step (l : t) (o : LockTrace.op) :
  (0 <= attemptsLeft l <= maxAttempts l)%Z ->
  (0 < maxAttempts l)%Z ->
  (locked l = true <-> attemptsLeft l = 0%Z) ->
  let l' := LockTrace.step l o in
  maxAttempts l' = maxAttempts l
  /\ (0 <= attemptsLeft l' <= maxAttempts l')%Z
  /\ (locked l' = true <-> attemptsLeft l' = 0%Z).
Proof.
  intros Hb Hm Hl l'. subst l'. destruct o as [digit| |]; cbn.
  - destruct (enterDigit_frame l digit) as (_ & M & A & L).
    cbn in M, A, L. rewrite M, A, L. tauto.
  - unfold submitPassword. destruct (locked l) eqn:El.
    + cbn. rewrite El. tauto.
    + assert (Hpos : attemptsLeft l <> 0%Z)
        by (intros E; apply Hl in E; discriminate).
      destruct (String.eqb _ _).
      * unfold reset, set_locked, set_enteredPassword, set_attemptsLeft. cbn.
        repeat split; try lia; intros; try discriminate; lia.
      * unfold set_locked, set_enteredPassword, set_attemptsLeft. cbn.
        destruct (Z.leb_spec (attemptsLeft l - 1) 0); cbn;
          repeat split; try lia; intros; try discriminate.
        rewrite El in *. discriminate.
  - unfold reset, set_locked, set_enteredPassword, set_attemptsLeft. cbn.
    repeat split; try lia; intros; try discriminate; lia.
Qed.

End LockMore.

(** X18.  The right code always opens the lock: on a lock that is not
    locked and has nothing entered, entering the characters of its code one
    by one and submitting returns the success outcome and leaves the lock
    reset, with all its attempts back, however many attempts were used
    before. *)
Theorem lock_correct_code (l : PasswordSystem.t) :
  PasswordSystem.locked l = false ->
  PasswordSystem.enteredPassword l = EmptyString ->
  let entered :=
    LockTrace.enterDigits (LockTrace.digitsOf (PasswordSystem.correctPassword l)) l in
  PasswordSystem.enteredPassword entered = PasswordSystem.correctPassword l
  /\ PasswordSystem.submitPassword entered
     = (PasswordSystem.reset l,
        Outcome.plain true PasswordSystem.msgCorrect)
  /\ PasswordSystem.attemptsLeft (PasswordSystem.reset l)
     = PasswordSystem.maxAttempts l.
Proof.
  intros Hl He entered. subst entered.
  rewrite (enterDigits_suffix (PasswordSystem.correctPassword l) l EmptyString
             Hl He eq_refl).
  split; [reflexivity|]. split; [|reflexivity].
  unfold PasswordSystem.submitPassword. cbn. rewrite Hl, String.eqb_refl.
  reflexivity.
Qed.

(** 9-4-2-7 after two wrong submissions of the game's lock. *)
Lemma lock_correct_code_witness :
  let wrong l :=
    fst (PasswordSystem.submitPassword
           (LockTrace.enterDigits ["1"; "2"; "3"; "4"] l)) in
  let l := wrong (wrong (PasswordSystem.new "9427")) in
  PasswordSystem.attemptsLeft l = 1%Z
  /\ PasswordSystem.submitPassword
       (LockTrace.enterDigits ["9"; "4"; "2"; "7"] l)
     = (PasswordSystem.new "9427",
        Outcome.plain true PasswordSystem.msgCorrect).
Proof.
  intros wrong l. split; [reflexivity|].
  destruct (lock_correct_code l eq_refl eq_refl) as (_ & H & _).
  exact H.
Defined.

(** X19.  The attempt counter stays in range: after any history of calls on
    a fresh lock there are between 0 and 3 attempts left, and the lock is
    locked exactly when none is left. *)
Theorem lock_attempts_range (pw : string) (ops : list LockTrace.op) :
  let l := LockTrace.run ops (PasswordSystem.new pw) in
  PasswordSystem.maxAttempts l = 3%Z
  /\ (0 <= PasswordSystem.attemptsLeft l <= 3)%Z
  /\ (PasswordSystem.locked l = true <-> PasswordSystem.attemptsLeft l = 0%Z).
Proof.
  assert (Hgen : forall ops l0,
             PasswordSystem.maxAttempts l0 = 3%Z ->
             (0 <= PasswordSystem.attemptsLeft l0 <= 3)%Z ->
             (PasswordSystem.locked l0 = true
              <-> PasswordSystem.attemptsLeft l0 = 0%Z) ->
             let l := LockTrace.run ops l0 in
             PasswordSystem.maxAttempts l = 3%Z
             /\ (0 <= PasswordSystem.attemptsLeft l <= 3)%Z
             /\ (PasswordSystem.locked l = true
                 <-> PasswordSystem.attemptsLeft l = 0%Z)).
  { clear. unfold LockTrace.run.
    induction ops as [|o ops IH]; intros l0 Hm Hb Hl; simpl;
      [split; [exact Hm|]; split; [exact Hb | exact Hl]|].
    destruct (attempts_step l0 o) as (Hm' & Hb' & Hl');
      [rewrite Hm; exact Hb | rewrite Hm; lia | exact Hl|].
    cbn in Hm', Hb', Hl'. rewrite Hm in Hm'. rewrite Hm' in Hb'.
    now apply IH. }
  apply Hgen; cbn; [reflexivity | lia | split; [discriminate | lia]].
Qed.

(* ==================== Properties: runs of the engine ==================== *)
Section Unwinnable.
Import ClueSystem.

Lemma executeAction_catalogKeyed (a : InteractionAction.t) (s : t) :
  EngineTrace.catalogKeyed s ->
  EngineTrace.catalogKeyed (fst (executeAction a s)).
Proof.
  intros Hk. unfold EngineTrace.catalogKeyed.
  destruct (executeAction_frame a s) as (_ & -> & _). exact Hk.
Qed.

Lemma safeAction_noKeyNoWin (a : InteractionAction.t) (s : t) :
  EngineTrace.safeAction a = true ->
  EngineTrace.catalogKeyed s ->
  EngineTrace.noKeyNoWin s ->
  EngineTrace.noKeyNoWin (fst (executeAction a s)).
Proof.
  intros Hsafe Hk [Hkey Hwin].
  destruct a; simpl in *; try (split; assumption).
  - destruct (items s !! payload) as [item|] eqn:Hitem; [|now split].
    destruct (Inventory.hasItem _ _); [now split|].
    unfold Inventory.addItem.
    destruct (_ <=? _)%Z; [now split|].
    destruct (match JsMap.get _ _ with Some _ => _ | None => _ end);
      [now split|].
    split; [|exact Hwin].
    unfold hasItem, Inventory.hasItem in *. cbn.
    destruct (JsMap.has "golden_key" (JsMap.set _ _ _)) eqn:E; [|reflexivity].
    apply has_set in E as [E|E]; [|congruence].
    rewrite (Hk _ _ Hitem) in E. subst payload. discriminate.
  - destruct (Inventory.hasItem _ _); now split.
  - unfold Inventory.removeItem.
    destruct (JsMap.has payload _); [|now split].
    split; [|exact Hwin].
    unfold hasItem, Inventory.hasItem in *. cbn.
    destruct (JsMap.has "golden_key" (JsMap.delete _ _)) eqn:E; [|reflexivity].
    apply has_delete in E. congruence.
  - split; [exact Hkey|].
    unfold isGameComplete, GameState.get, GameState.set in *. cbn.
    destruct (String.eqb_spec key "gameComplete") as [->|Hne];
      [discriminate|].
    now rewrite lookup_insert_ne.
Qed.

Lemma harmless_noKeyNoWin (actions : list InteractionAction.t) (s : t) :
  EngineTrace.harmless actions = true ->
  EngineTrace.catalogKeyed s ->
  EngineTrace.noKeyNoWin s ->
  EngineTrace.noKeyNoWin (fst (executeActions actions s)).
Proof.
  revert s. induction actions as [|a rest IH]; intros s Hh Hk Hn;
    [exact Hn|].
  assert (Hcase :
            (exists p, a = InteractionAction.require_item p
                       /\ InteractionAction.itemId p = "golden_key")
            \/ (EngineTrace.safeAction a = true
                /\ EngineTrace.harmless rest = true)).
  { destruct a; simpl in Hh;
      try (right; split; [reflexivity | exact Hh]);
      try (right; apply andb_prop in Hh; exact Hh).
    apply orb_prop in Hh as [E|E].
    - left. exists payload. split; [reflexivity|].
      now apply String.eqb_eq.
    - right. now split. }
  destruct Hcase as [(p & -> & Hp)|[Hsafe Hrest]].
  - simpl. rewrite Hp. destruct Hn as [Hkey Hwin].
    unfold hasItem in Hkey. rewrite Hkey. simpl. now split.
  - simpl.
    pose proof (safeAction_noKeyNoWin a s Hsafe Hk Hn) as Hn'.
    pose proof (executeAction_catalogKeyed a s Hk) as Hk'.
    destruct (executeAction a s) as [s1 r1]. simpl in *.
    destruct (Outcome.success r1); simpl; [now apply IH | exact Hn'].
Qed.

Lemma new_sceneHarmless : EngineTrace.sceneHarmless new.
Proof.
  unfold EngineTrace.sceneHarmless.
  apply map_Forall_to_list. vm_compute. repeat constructor.
Qed.

Lemma step_unwinnable (o : EngineTrace.op) (s : t) :
  EngineTrace.catalogKeyed s ->
  EngineTrace.sceneHarmless s ->
  EngineTrace.noKeyNoWin s ->
  EngineTrace.catalogKeyed (EngineTrace.step s o)
  /\ EngineTrace.sceneHarmless (EngineTrace.step s o)
  /\ EngineTrace.noKeyNoWin (EngineTrace.step s o).
Proof.
  intros Hk Hs Hn. destruct o as [objectId|digit|]; simpl.
  - unfold interact.
    destruct (sceneObjects s !! objectId) as [object|] eqn:Hobj;
      [|split; [assumption | split; assumption]].
    destruct (SceneObject.interactions object) as [|i others] eqn:Hint;
      [split; [assumption | split; assumption]|].
    destruct (negb _); [split; [assumption | split; assumption]|].
    pose proof (Hs objectId object Hobj) as Hi. simpl in Hi.
    rewrite Hint in Hi.
    pose proof (harmless_noKeyNoWin (Interaction.actions i) s Hi Hk Hn) as Hn'.
    destruct (executeActions_frame (Interaction.actions i) s)
      as (Hscene & Hitems & _).
    destruct (executeActions (Interaction.actions i) s) as [s1 r1].
    simpl in *.
    assert (Hk1 : EngineTrace.catalogKeyed s1)
      by (unfold EngineTrace.catalogKeyed; now rewrite Hitems).
    assert (Hs1 : EngineTrace.sceneHarmless s1)
      by (unfold EngineTrace.sceneHarmless; now rewrite Hscene).
    destruct (Outcome.success r1); [|split; [assumption | split; assumption]].
    split; [exact Hk1|]. split; [|exact Hn'].
    unfold EngineTrace.sceneHarmless. cbn.
    apply map_Forall_insert_2; [exact Hi | exact Hs1].
  - unfold enterPasswordDigit.
    destruct (PasswordSystem.enterDigit _ _); split; [assumption | split; assumption].
  - unfold submitPassword.
    destruct (PasswordSystem.submitPassword _) as [p r].
    destruct (Outcome.success r); [|split; [assumption | split; assumption]].
    destruct Hn as [Hkey Hwin].
    split; [assumption|]. split; [assumption|]. split; [assumption|].
    unfold isGameComplete, GameState.get, GameState.set, GameState.setFlag
      in *. cbn.
    now rewrite lookup_insert_ne.
Qed.

End Unwinnable.

(** X20.  Through [interact], [enterPasswordDigit] and [submitPassword]
    alone the game cannot be finished: after any sequence of these calls on
    a fresh engine the golden key is not held and [isGameComplete] is
    false.  (The only grant of the golden key is in the success actions
    nested in the safe's [check_password] action, which none of the three
    methods runs, and the door requires the key.) *)
Theorem engine_never_completes (ops : list EngineTrace.op) :
  let s := EngineTrace.run ops ClueSystem.new in
  ClueSystem.hasItem "golden_key" s = false
  /\ ClueSystem.isGameComplete s = false.
Proof.
  assert (Hgen : forall ops s0,
             EngineTrace.catalogKeyed s0 ->
             EngineTrace.sceneHarmless s0 ->
             EngineTrace.noKeyNoWin s0 ->
             EngineTrace.noKeyNoWin (EngineTrace.run ops s0)).
  { clear. unfold EngineTrace.run.
    induction ops as [|o ops IH]; intros s0 Hk Hs Hn; simpl; [exact Hn|].
    destruct (step_unwinnable o s0 Hk Hs Hn) as (Hk' & Hs' & Hn').
    now apply IH. }
  apply Hgen.
  - exact new_catalogKeyed.
  - exact new_sceneHarmless.
  - split; reflexivity.
Qed.

Section DebugSnapshot.
Import ClueSystem.

Lemma executeAction_wellFormed (a : InteractionAction.t) (s : t) :
  InventoryTrace.wellFormed (inventory s) ->
  InventoryTrace.wellFormed (inventory (fst (executeAction a s))).
Proof.
  intros Hwf. destruct a; simpl; try exact Hwf.
  - destruct (items s !! payload) as [item|]; [|exact Hwf].
    destruct (Inventory.hasItem _ _); [exact Hwf|].
    pose proof (addItem_wellFormed (Item.clone item) (inventory s) Hwf)
      as [Hwf' _].
    destruct (Inventory.addItem _ _) as [inv' added]. simpl in *.
    now destruct added.
  - now destruct (Inventory.hasItem _ _).
  - pose proof (removeItem_wellFormed payload (inventory s) Hwf) as [Hwf' _].
    destruct (Inventory.removeItem _ _) as [inv' removed]. simpl in *.
    now destruct removed.
Qed.

Lemma stateAfter_wellFormed (actions : list InteractionAction.t) (s : t) :
  InventoryTrace.wellFormed (inventory s) ->
  InventoryTrace.wellFormed (inventory (EngineTrace.stateAfter actions s)).
Proof.
  revert s. induction actions as [|a rest IH]; intros s Hwf; simpl;
    [exact Hwf|].
  apply IH. now apply executeAction_wellFormed.
Qed.

Lemma step_engine_wellFormed (o : EngineTrace.op) (s : t) :
  InventoryTrace.wellFormed (inventory s) ->
  InventoryTrace.wellFormed (inventory (EngineTrace.step s o)).
Proof.
  intros Hwf. destruct o as [objectId|digit|]; simpl.
  - unfold interact.
    destruct (sceneObjects s !! objectId) as [object|]; [|exact Hwf].
    destruct (SceneObject.interactions object) as [|i others]; [exact Hwf|].
    destruct (negb _); [exact Hwf|].
    destruct (stateAfter_executeActions (Interaction.actions i) s)
      as [done Hd].
    pose proof (stateAfter_wellFormed done s Hwf) as Hwf'.
    destruct (executeActions (Interaction.actions i) s) as [s1 r1].
    simpl in Hd. subst s1.
    now destruct (Outcome.success r1).
  - unfold enterPasswordDigit.
    now destruct (PasswordSystem.enterDigit _ _).
  - unfold submitPassword.
    destruct (PasswordSystem.submitPassword _) as [p r].
    now destruct (Outcome.success r).
Qed.

Lemma keyed_ids (m : JsMap.t Item.t) :
  List.Forall (fun kv => Item.id (snd kv) = fst kv) m ->
  List.map fst
    (List.map (fun i => (Item.id i, Item.name i)) (JsMap.values m))
  = List.map fst m.
Proof.
  unfold JsMap.values. induction 1 as [|[k v] m Hkv _ IH]; simpl;
    [reflexivity|].
  simpl in Hkv. now rewrite Hkv, IH.
Qed.

End DebugSnapshot.

(** X21.  The debug snapshot lists the inventory as it is: after any
    sequence of [interact], [enterPasswordDigit] and [submitPassword] calls
    on a fresh engine, the identifiers in [getDebugInfo().inventory] are the
    keys of the inventory in their order, none twice, as many as
    [getItemCount] says, and an identifier is listed exactly when [hasItem]
    holds for it. *)
Theorem debug_snapshot_inventory
  (ops : list EngineTrace.op) (debugLogger : DebugLogger.t) (itemId : string) :
  let s := EngineTrace.run ops ClueSystem.new in
  let listed :=
    List.map fst (ClueSystem.di_inventory (ClueSystem.getDebugInfo s debugLogger)) in
  listed = List.map fst (Inventory.items (ClueSystem.inventory s))
  /\ List.NoDup listed
  /\ Z.of_nat (List.length listed)
     = Inventory.getItemCount (ClueSystem.inventory s)
  /\ (ClueSystem.hasItem itemId s = true <-> List.In itemId listed)
  /\ ClueSystem.di_logs (ClueSystem.getDebugInfo s debugLogger)
     = DebugLogger.logs debugLogger.
Proof.
  intros s listed.
  assert (Hwf : InventoryTrace.wellFormed (ClueSystem.inventory s)).
  { subst s. unfold EngineTrace.run.
    assert (H0 : InventoryTrace.wellFormed
                   (ClueSystem.inventory ClueSystem.new)).
    { split; [constructor|]. split; [constructor|].
      unfold Inventory.getItemCount, JsMap.size. cbn. lia. }
    revert H0. generalize ClueSystem.new.
    induction ops as [|o ops IH]; intros s0 H0; simpl; [exact H0|].
    apply IH. now apply step_engine_wellFormed. }
  destruct Hwf as (Hnd & Hkeyed & _).
  assert (Hlisted : listed
                    = List.map fst (Inventory.items (ClueSystem.inventory s))).
  { subst listed. unfold ClueSystem.getDebugInfo, Inventory.getAllItems. cbn.
    now apply keyed_ids. }
  rewrite Hlisted. repeat split.
  - exact Hnd.
  - unfold Inventory.getItemCount, JsMap.size. now rewrite List.length_map.
  - unfold ClueSystem.hasItem, Inventory.hasItem, JsMap.has.
    intros Hhas.
    destruct (List.in_dec string_dec itemId
                (List.map fst (Inventory.items (ClueSystem.inventory s))))
      as [Hin|Hnot]; [exact Hin|].
    apply get_none_not_in in Hnot. rewrite Hnot in Hhas. discriminate.
  - unfold ClueSystem.hasItem, Inventory.hasItem, JsMap.has.
    intros Hin.
    destruct (JsMap.get itemId (Inventory.items (ClueSystem.inventory s)))
      eqn:Hget; [reflexivity|].
    apply get_none_not_in in Hget. contradiction.
Qed.
